(** * timeslots: free slots of a span after subtracting busy blocks

    A shallow embedding of [finder.go] (package [timeslots]) and the
    properties of its two entry points, [Find] and [FindWithMapper].

    Time points ([time.Time]) are integers; [Before] is [<].  A [*Span] is a
    location of a heap of spans, because the sweep mutates its working span
    through a pointer; blocks and slots are never mutated and are values.
    A run of an entry point is a function from the state before the call to
    either a panic or a result together with the state after the call. *)

From Stdlib Require Import ZArith Lia.
From stdpp Require Import base gmap list sorting.

Local Open Scope Z_scope.

(** ** Time points *)

Definition Time := Z.

Definition Before (t u : Time) : bool := t <? u.

(** ** The interval types

    [finder.go] uses [Period], [Block], [Span] and [Slot] and their methods,
    which the package declares outside [finder.go]. *)

(** Modelled from the spec: the [Period] capability is declared outside
    [finder.go]; it is "anything exposing Start() and End() as ordered time
    points". *)
Class Period (A : Type) := { Start : A -> Time; End : A -> Time }.

(** Modelled from the spec: [Block] is declared outside [finder.go]; a busy
    interval over two time points.  The trusting constructor skips
    validation. *)
Record Block := NewBlockWithoutValidating { block_start : Time; block_end : Time }.

(** Modelled from the spec: [Span] is declared outside [finder.go]; the
    search window. *)
Record Span := mkSpan { span_start : Time; span_end : Time }.

(** Modelled from the spec: [Slot] is declared outside [finder.go]; a free
    interval of the result. *)
Record Slot := mkSlot { slot_start : Time; slot_end : Time }.

#[export] Instance Block_Period : Period Block :=
  {| Start := block_start; End := block_end |}.
#[export] Instance Span_Period : Period Span :=
  {| Start := span_start; End := span_end |}.
#[export] Instance Slot_Period : Period Slot :=
  {| Start := slot_start; End := slot_end |}.

#[export] Instance Block_eq_dec : EqDecision Block.
Proof. solve_decision. Defined.
#[export] Instance Span_eq_dec : EqDecision Span.
Proof. solve_decision. Defined.
#[export] Instance Slot_eq_dec : EqDecision Slot.
Proof. solve_decision. Defined.

(** A block, span or slot is well formed when [Start < End]. *)
Definition well_formed {P} `{Period P} (p : P) : Prop := Start p < End p.

(** ** The four predicates of a block against a period

    Modelled from the spec: the methods of [Block] are declared outside
    [finder.go]; each is the condition of the spec's predicate table
    (section 4.1), which is also what [blocks_test.go] expects of them. *)

(** Modelled from the spec: [block.Contains(p)],
    [p.Start >= block.Start && p.End <= block.End]. *)
Definition Contains {P} `{Period P} (block : Block) (p : P) : bool :=
  (Start block <=? Start p) && (End p <=? End block).

(** Modelled from the spec: [block.IsContainedIn(p)],
    [p.Start <= block.Start && block.End <= p.End]. *)
Definition IsContainedIn {P} `{Period P} (block : Block) (p : P) : bool :=
  (Start p <=? Start block) && (End block <=? End p).

(** Modelled from the spec: [block.OverlapAtStart(p)],
    [block.Start <= p.Start && p.Start < block.End && block.End <= p.End]. *)
Definition OverlapAtStart {P} `{Period P} (block : Block) (p : P) : bool :=
  (Start block <=? Start p) && (Start p <? End block) && (End block <=? End p).

(** Modelled from the spec: [block.OverlapAtEnd(p)],
    [p.Start <= block.Start && block.Start < p.End && p.End <= block.End]. *)
Definition OverlapAtEnd {P} `{Period P} (block : Block) (p : P) : bool :=
  (Start p <=? Start block) && (Start block <? End p) && (End p <=? End block).

(** How many of the four predicates hold of a block and a period. *)
Definition holding {P} `{Period P} (block : Block) (p : P) : nat :=
  (Nat.b2n (Contains block p) + Nat.b2n (OverlapAtStart block p)
   + Nat.b2n (IsContainedIn block p) + Nat.b2n (OverlapAtEnd block p))%nat.

(** ** Values of a span

    Modelled from the spec: the methods of [Span] are declared outside
    [finder.go].  These are their effects on the value a span holds; the
    methods themselves, on a pointer, follow below. *)

(** Modelled from the spec: [Remain] is "true while Start < End still holds". *)
Definition span_remain (s : Span) : bool := Before (span_start s) (span_end s).

(** Modelled from the spec: [Shorten(block)] "advances Start forward to
    block.End". *)
Definition span_shorten (s : Span) (block : Block) : Span :=
  {| span_start := End block; span_end := span_end s |}.

(** Modelled from the spec: [Drop] "forces Remain to false".  The spec does
    not say how; here [Start] moves to [End].  [Find] only ever asks a
    dropped span whether it remains. *)
Definition span_drop (s : Span) : Span :=
  {| span_start := span_end s; span_end := span_end s |}.

(** Modelled from the spec: [ToSlot] "converts the current remaining window
    into a result Slot". *)
Definition span_to_slot (s : Span) : Slot :=
  {| slot_start := span_start s; slot_end := span_end s |}.

(** Modelled from the spec: [createSlotFrom(target, block)] is declared
    outside [finder.go]; it builds "the gap between target.Start and
    block.Start". *)
Definition createSlotFrom (target : Span) (block : Block) : Slot :=
  {| slot_start := Start target; slot_end := Start block |}.

(** ** State, results and the monad of a run *)

(** What a run does that a caller can observe besides its result:
    [sort.Slice] is called on the inputs, the loop reaches an input, the
    filter is called on a candidate. *)
Inductive Event (In Out : Type) : Type :=
  | EvSort (inputs : list In)
  | EvVisit (input : In)
  | EvFilter (candidate : Out).
Arguments EvSort {In Out} inputs.
Arguments EvVisit {In Out} input.
Arguments EvFilter {In Out} candidate.

Record State (Ev : Type) : Type := mkState {
  heap : gmap positive Span;
  trace : list Ev
}.
Arguments mkState {Ev} heap trace.
Arguments heap {Ev} s.
Arguments trace {Ev} s.

Inductive Result (A : Type) : Type :=
  | Ok (a : A)
  | Panic.
Arguments Ok {A} a.
Arguments Panic {A}.

Definition M (Ev A : Type) : Type := State Ev -> Result (A * State Ev).

Definition ret {Ev A} (a : A) : M Ev A := fun st => Ok (a, st).

Definition bind {Ev A B} (m : M Ev A) (k : A -> M Ev B) : M Ev B :=
  fun st => match m st with
            | Ok (a, st') => k a st'
            | Panic => Panic
            end.

Definition panic {Ev A} : M Ev A := fun _ => Panic.

Notation "'let!' x ':=' m 'in' k" := (bind m (fun x => k))
  (at level 10, x pattern, m at level 100, k at level 200).

Definition emit {Ev} (e : Ev) : M Ev unit :=
  fun st => Ok (tt, mkState (heap st) (trace st ++ [e])).

(** Reading and writing through a [*Span]; a location that holds no span
    is one no Go pointer can have. *)
Definition load {Ev} (p : positive) : M Ev Span :=
  fun st => match heap st !! p with
            | Some s => Ok (s, st)
            | None => Panic
            end.

Definition store {Ev} (p : positive) (s : Span) : M Ev unit :=
  fun st => Ok (tt, mkState (<[p := s]> (heap st)) (trace st)).

Definition alloc {Ev} (s : Span) : M Ev positive :=
  fun st => let p := fresh (dom (heap st)) in
            Ok (p, mkState (<[p := s]> (heap st)) (trace st)).

(** ** The methods of [*Span] *)

Definition Remain {Ev} (p : positive) : M Ev bool :=
  let! s := load p in ret (span_remain s).

Definition Shorten {Ev} (p : positive) (block : Block) : M Ev unit :=
  let! s := load p in store p (span_shorten s block).

Definition Drop {Ev} (p : positive) : M Ev unit :=
  let! s := load p in store p (span_drop s).

Definition ToSlot {Ev} (p : positive) : M Ev Slot :=
  let! s := load p in ret (span_to_slot s).

(** Modelled from the spec: [Clone] gives "a mutable working copy of the
    original span", a new span with the same two time points. *)
Definition Clone {Ev} (p : positive) : M Ev positive :=
  let! s := load p in alloc s.

(** A predicate of a block called on the span a pointer leads to. *)
Definition against {Ev} (pred : Block -> Span -> bool) (block : Block)
    (p : positive) : M Ev bool :=
  let! s := load p in ret (pred block s).

Definition createSlotFromP {Ev} (p : positive) (block : Block) : M Ev Slot :=
  let! s := load p in ret (createSlotFrom s block).

(** ** Slices *)

(** The zero value of a Go type, which [make] fills a new slice with. *)
Class Zero (A : Type) := zero : A.

(** A [*Slot] is a slot or [nil]. *)
#[export] Instance pointer_Zero {A} : Zero (option A) := None.

(** [make([]A, n)] *)
Definition make {A} `{Zero A} (n : nat) : list A := replicate n zero.

(** [buf[j] = x]; Go panics when [j] is out of range. *)
Definition set_index {Ev A} (buf : list A) (j : nat) (x : A) : M Ev (list A) :=
  if decide (j < length buf)%nat then ret (<[j := x]> buf) else panic.

(** [buf[:j]]; Go panics when [j] exceeds the capacity, here the length. *)
Definition slice_to {Ev A} (buf : list A) (j : nat) : M Ev (list A) :=
  if decide (j <= length buf)%nat then ret (take j buf) else panic.

(** [sort.Slice] belongs to Go's library.  Its contract: the slice is
    permuted and, for a strict weak ordering [less], no element is less than
    one before it; elements that compare equal come in any order. *)
Record StrictWeakOrder {A} (less : A -> A -> bool) : Prop := {
  less_asym : forall a b, less a b = true -> less b a = false;
  less_cotrans : forall a b c, less a c = true -> less a b = true \/ less b c = true
}.

Class SliceSort : Type := {
  sort_slice : forall {A : Type}, (A -> A -> bool) -> list A -> list A;
  sort_slice_perm : forall A (less : A -> A -> bool) (xs : list A),
    sort_slice less xs ≡ₚ xs;
  sort_slice_sorted : forall A (less : A -> A -> bool) (xs : list A),
    StrictWeakOrder less ->
    StronglySorted (fun a b => less b a = false) (sort_slice less xs)
}.

(** ** Mappers and options *)

(** [MapInFunc[In]] maps the caller's struct to a [*Block]. *)
Definition MapInFunc (In : Type) : Type := In -> Block.

(** [MapOutFunc[Out]] maps a [*Slot], never [nil], to the caller's struct. *)
Definition MapOutFunc (Out : Type) : Type := Slot -> Out.

(** [FilterFunc[Out]] is a function value, which may be [nil]. *)
Definition FilterFunc (Out : Type) : Type := option (Out -> bool).

(** [Options[Out]], with its one field [FilterFunc]. *)
Record Options (Out : Type) : Type := mkOptions { Options_FilterFunc : FilterFunc Out }.
Arguments mkOptions {Out} _.
Arguments Options_FilterFunc {Out} _.

Definition IsSetFilter {Out} (o : Options Out) : bool :=
  match Options_FilterFunc o with
  | Some _ => true
  | None => false
  end.

(** An [Option] updates the options it is given a pointer to. *)
Definition Option (Out : Type) : Type := Options Out -> Options Out.

Definition WithFilter {Out} (filter : FilterFunc Out) : Option Out :=
  fun _ => mkOptions filter.

(** [for _, opt := range opts { opt(&options) }] from [FilterFunc: nil]. *)
Definition apply_opts {Out} (opts : list (Option Out)) : Options Out :=
  foldl (fun options opt => opt options) (mkOptions None) opts.

(** [options.FilterFunc(slot)]: the call of a [nil] function panics. *)
Definition call_filter {In Out} (options : Options Out) (slot : Out)
    : M (Event In Out) bool :=
  match Options_FilterFunc options with
  | Some f => let! _ := emit (EvFilter slot) in ret (f slot)
  | None => panic
  end.

(** [options.IsSetFilter() && options.FilterFunc(slot)] *)
Definition excluded {In Out} (options : Options Out) (slot : Out)
    : M (Event In Out) bool :=
  if IsSetFilter options then call_filter options slot else ret false.

(** [sort.Slice(inputs, less)] sorts the caller's slice in place. *)
Definition sort_Slice `{SliceSort} {In Out} (less : In -> In -> bool)
    (inputs : list In) : M (Event In Out) (list In) :=
  let! _ := emit (EvSort inputs) in ret (sort_slice less inputs).

(** ** [FindWithMapper] *)

Section FindWithMapper.
Context `{SliceSort}.
Context {In Out : Type} `{Period In} `{Zero Out}.
Variable mapin : MapInFunc In.
Variable mapout : MapOutFunc Out.
Variable options : Options Out.
Variable target : positive.

(** The loop [for _, input := range inputs] of [FindWithMapper], from
    [input] on, with the locals [j] and [slots]: [break] returns them,
    [continue] goes on with the rest of the inputs. *)
Fixpoint sweepWithMapper (inputs : list In) (j : nat) (slots : list Out)
    : M (Event In Out) (nat * list Out) :=
  match inputs with
  | [] => ret (j, slots)
  | input :: rest =>
    let! _ := emit (EvVisit input) in
    let block := mapin input in
    let! contains := against (fun b s => Contains b s) block target in
    if contains then
      let! _ := Drop target in
      ret (j, slots)
    else
    let! atStart := against (fun b s => OverlapAtStart b s) block target in
    if atStart then
      let! _ := Shorten target block in
      sweepWithMapper rest j slots
    else
    let! inside := against (fun b s => IsContainedIn b s) block target in
    if inside then
      let! s := createSlotFromP target block in
      let slot := mapout s in
      let! _ := Shorten target block in
      let! out := excluded options slot in
      if out then sweepWithMapper rest j slots
      else
        let! slots := set_index slots j slot in
        sweepWithMapper rest (S j) slots
    else
    let! atEnd := against (fun b s => OverlapAtEnd b s) block target in
    if atEnd then
      let! s := createSlotFromP target block in
      let slot := mapout s in
      let! _ := Drop target in
      let! out := excluded options slot in
      if out then ret (j, slots)
      else
        let! slots := set_index slots j slot in
        ret (S j, slots)
    else sweepWithMapper rest j slots
  end.
End FindWithMapper.

(** [FindWithMapper(inputs, span, mapin, mapout, opts...)]: the result and
    the caller's slice [inputs] as the call leaves it. *)
Definition FindWithMapper `{SliceSort} {In Out : Type} `{Period In} `{Zero Out}
    (inputs : list In) (span : option positive)
    (mapin : MapInFunc In) (mapout : MapOutFunc Out) (opts : list (Option Out))
    : M (Event In Out) (list Out * list In) :=
  let options := apply_opts opts in
  match span with
  | None => ret ([], inputs)
  | Some span =>
    let! remain := Remain span in
    if negb remain then ret ([], inputs)
    else
    let! target := Clone span in
    if decide (length inputs = 0%nat) then
      let! s := ToSlot target in
      ret ([mapout s], inputs)
    else
    let! inputs := sort_Slice (fun a b => Before (Start a) (Start b)) inputs in
    let! (j, slots) :=
      sweepWithMapper mapin mapout options target inputs 0
        (make (length inputs + 1)) in
    let! remain := Remain target in
    if negb remain then
      let! result := slice_to slots j in
      ret (result, inputs)
    else
    let! s := ToSlot target in
    let slot := mapout s in
    let! out := excluded options slot in
    if out then
      let! result := slice_to slots j in
      ret (result, inputs)
    else
    let! slots := set_index slots j slot in
    let j := S j in
    let! result := slice_to slots j in
    ret (result, inputs)
  end.

(** ** [Find] *)

Section Find.
Context `{SliceSort}.
Variable options : Options (option Slot).
Variable target : positive.

(** The loop [for _, block := range blocks] of [Find].  A slot the loop
    builds is a pointer that is not [nil]. *)
Fixpoint sweep (blocks : list Block) (j : nat) (slots : list (option Slot))
    : M (Event Block (option Slot)) (nat * list (option Slot)) :=
  match blocks with
  | [] => ret (j, slots)
  | block :: rest =>
    let! _ := emit (EvVisit block) in
    let! contains := against (fun b s => Contains b s) block target in
    if contains then
      let! _ := Drop target in
      ret (j, slots)
    else
    let! atStart := against (fun b s => OverlapAtStart b s) block target in
    if atStart then
      let! _ := Shorten target block in
      sweep rest j slots
    else
    let! inside := against (fun b s => IsContainedIn b s) block target in
    if inside then
      let! s := createSlotFromP target block in
      let slot := Some s in
      let! _ := Shorten target block in
      let! out := excluded options slot in
      if out then sweep rest j slots
      else
        let! slots := set_index slots j slot in
        sweep rest (S j) slots
    else
    let! atEnd := against (fun b s => OverlapAtEnd b s) block target in
    if atEnd then
      let! s := createSlotFromP target block in
      let slot := Some s in
      let! _ := Drop target in
      let! out := excluded options slot in
      if out then ret (j, slots)
      else
        let! slots := set_index slots j slot in
        ret (S j, slots)
    else sweep rest j slots
  end.
End Find.

(** [Find(blocks, span, opts...)]: the result, a [[]*Slot], and the caller's
    slice [blocks] as the call leaves it. *)
Definition Find `{SliceSort} (blocks : list Block) (span : option positive)
    (opts : list (Option (option Slot)))
    : M (Event Block (option Slot)) (list (option Slot) * list Block) :=
  let options := apply_opts opts in
  match span with
  | None => ret ([], blocks)
  | Some span =>
    let! remain := Remain span in
    if negb remain then ret ([], blocks)
    else
    let! target := Clone span in
    if decide (length blocks = 0%nat) then
      let! s := ToSlot target in
      ret ([Some s], blocks)
    else
    let! blocks := sort_Slice (fun a b => Before (Start a) (Start b)) blocks in
    let! (j, slots) :=
      sweep options target blocks 0 (make (length blocks + 1)) in
    let! remain := Remain target in
    if negb remain then
      let! result := slice_to slots j in
      ret (result, blocks)
    else
    let! s := ToSlot target in
    let slot := Some s in
    let! out := excluded options slot in
    if out then
      let! result := slice_to slots j in
      ret (result, blocks)
    else
    let! slots := set_index slots j slot in
    let j := S j in
    let! result := slice_to slots j in
    ret (result, blocks)
  end.

(** ** A [sort.Slice]: insertion from the right *)

Fixpoint insert_sorted {A} (less : A -> A -> bool) (x : A) (xs : list A) : list A :=
  match xs with
  | [] => [x]
  | y :: ys => if less y x then y :: insert_sorted less x ys else x :: y :: ys
  end.

Definition insertion_sort {A} (less : A -> A -> bool) (xs : list A) : list A :=
  foldr (insert_sorted less) [] xs.

(** ** What the loop computes

    The loop as a function of the value of the working span: the candidates
    it keeps, in order, and the value it leaves in the working span. *)

Section Walk.
Context {In : Type}.
Variable mapin : In -> Block.
Variable keep : Slot -> bool.

Definition kept (s : Slot) : list Slot := if keep s then [s] else [].

Fixpoint walk (t : Span) (inputs : list In) : list Slot * Span :=
  match inputs with
  | [] => ([], t)
  | input :: rest =>
    let block := mapin input in
    if Contains block t then ([], span_drop t)
    else if OverlapAtStart block t then walk (span_shorten t block) rest
    else if IsContainedIn block t then
      (kept (createSlotFrom t block) ++ (walk (span_shorten t block) rest).1,
       (walk (span_shorten t block) rest).2)
    else if OverlapAtEnd block t then
      (kept (createSlotFrom t block), span_drop t)
    else walk t rest
  end.

(** The loop followed by the emission of what remains of the span. *)
Definition free_slots (t : Span) (inputs : list In) : list Slot :=
  (walk t inputs).1 ++
  (if span_remain (walk t inputs).2
   then kept (span_to_slot (walk t inputs).2) else []).
End Walk.

(** What [options.IsSetFilter() && options.FilterFunc(slot)] evaluates to. *)
Definition filtered {Out} (options : Options Out) (slot : Out) : bool :=
  match Options_FilterFunc options with
  | Some f => f slot
  | None => false
  end.

(** The slots of a call whose span is not [nil], before [mapout]. *)
Definition found `{SliceSort} {In Out} `{Period In} (mapin : In -> Block)
    (mapout : Slot -> Out) (options : Options Out) (span : Span)
    (inputs : list In) : list Slot :=
  if span_remain span then
    match inputs with
    | [] => [span_to_slot span]
    | _ => free_slots mapin (fun s => negb (filtered options (mapout s))) span
             (sort_slice (fun a b => Before (Start a) (Start b)) inputs)
    end
  else [].

(** The caller's slice after a call whose span is not [nil]. *)
Definition left_inputs `{SliceSort} {In} `{Period In} (span : Span)
    (inputs : list In) : list In :=
  if span_remain span
  then sort_slice (fun a b => Before (Start a) (Start b)) inputs
  else inputs.

(** ** Points, intervals and lists of slots *)

(** The point [x] lies in the half-open interval of [p]. *)
Definition covers {P} `{Period P} (x : Time) (p : P) : Prop :=
  Start p <= x /\ x < End p.

#[export] Instance covers_dec {P} `{Period P} (x : Time) (p : P) :
  Decision (covers x p).
Proof. unfold covers. apply _. Defined.

(** Two slots share no point. *)
Definition disjoint (a b : Slot) : Prop := End a <= Start b \/ End b <= Start a.

Definition pairwise_disjoint (slots : list Slot) : Prop :=
  forall (i j : nat) (a b : Slot),
    i <> j -> slots !! i = Some a -> slots !! j = Some b -> disjoint a b.

(** A [*Span] a caller can pass: [nil] or a pointer to a span. *)
Definition valid_span {Ev} (st : State Ev) (span : option positive) : Prop :=
  match span with
  | Some p => is_Some (heap st !! p)
  | None => True
  end.

(** A span with no room: [nil], or a span whose [Start] is not before its
    [End]. *)
Definition no_room {Ev} (st : State Ev) (span : option positive) : Prop :=
  match span with
  | Some p => exists sp, heap st !! p = Some sp /\ End sp <= Start sp
  | None => True
  end.

(** ** The scenarios of [finder_test.go], hours from a fixed origin *)

Definition run_Find `{SliceSort} (blocks : list (Z * Z)) (span : option (Z * Z))
    (opts : list (Option (option Slot))) : Result (list (option Slot)) :=
  let blocks := (fun b => NewBlockWithoutValidating b.1 b.2) <$> blocks in
  let '(span, st) :=
    match span with
    | Some s => (Some 1%positive, mkState {[ 1%positive := mkSpan s.1 s.2 ]} [])
    | None => (None, mkState ∅ [])
    end in
  match Find blocks span opts st with
  | Ok (result, _, _) => Ok result
  | Panic => Panic
  end.

Definition h (a b : Z) : option Slot := Some (mkSlot a b).

Definition shorter_than (d : Z) : FilterFunc (option Slot) :=
  Some (fun s => match s with
                 | Some s => End s - Start s <? d
                 | None => false
                 end).

Definition longer_than (d : Z) : FilterFunc (option Slot) :=
  Some (fun s => match s with
                 | Some s => d <? End s - Start s
                 | None => false
                 end).

Definition never : FilterFunc (option Slot) := Some (fun _ => false).

Definition every_slot (s : option Slot) : bool := true.

Definition always : FilterFunc (option Slot) := Some every_slot.

(** A caller's span [[0,8)] at location 1, and two overlapping blocks given
    out of order. *)
Definition sample_span : Span := mkSpan 0 8.

Definition sample_state {Ev} : State Ev :=
  mkState {[ 1%positive := sample_span ]} [].

Definition sample_blocks : list Block :=
  [NewBlockWithoutValidating 2 5; NewBlockWithoutValidating 1 4].

(** ** Callers with their own types, and what a trace shows *)

(** [f] on the caller's struct, as a filter of slot pointers. *)
Definition lift_filter {Out} (mapout : MapOutFunc Out) (filter : FilterFunc Out)
    : FilterFunc (option Slot) :=
  match filter with
  | Some f => Some (fun o => match o with
                             | Some s => f (mapout s)
                             | None => false
                             end)
  | None => None
  end.

(** Blocks the caller holds as pairs of a number and the block, given out of
    order. *)
Definition sample_inputs : list (nat * Block) :=
  [(2%nat, NewBlockWithoutValidating 6 7); (1%nat, NewBlockWithoutValidating 3 5)].

#[export] Instance named_Period : Period (nat * Block) :=
  {| Start := fun i => Start i.2; End := fun i => End i.2 |}.

(** The caller's result: the length of a slot. *)
Definition duration (s : Slot) : Z := End s - Start s.

#[export] Instance Z_Zero : Zero Z := 0.

(** The candidates a trace shows the filter was called on, in order. *)
Definition filter_calls {In Out} (tr : list (Event In Out)) : list Out :=
  omap (fun e => match e with
                 | EvFilter candidate => Some candidate
                 | _ => None
                 end) tr.

(** The inputs a trace shows the loop reached, in order. *)
Definition visits {In Out} (tr : list (Event In Out)) : list In :=
  omap (fun e => match e with
                 | EvVisit input => Some input
                 | _ => None
                 end) tr.

(** What the filter is called on when one is set. *)
Definition called {Out} (mapout : MapOutFunc Out) (options : Options Out)
    (slots : list Slot) : list Out :=
  if IsSetFilter options then mapout <$> slots else [].

(** * Proofs *)

(** ** Insertion sort is a [sort.Slice] *)

Lemma insert_sorted_perm {A} (less : A -> A -> bool) x xs :
  insert_sorted less x xs ≡ₚ x :: xs.
Proof.
  induction xs as [|y ys IH]; simpl; [done|].
  destruct (less y x); [|done].
  rewrite IH. apply Permutation_swap.
Qed.

Lemma insertion_sort_perm {A} (less : A -> A -> bool) xs :
  insertion_sort less xs ≡ₚ xs.
Proof.
  induction xs as [|x xs IH]; simpl; [done|].
  rewrite insert_sorted_perm. by f_equiv.
Qed.

Lemma insert_sorted_sorted {A} (less : A -> A -> bool) x xs :
  StrictWeakOrder less ->
  StronglySorted (fun a b => less b a = false) xs ->
  StronglySorted (fun a b => less b a = false) (insert_sorted less x xs).
Proof.
  intros [Hasym Hco]. induction xs as [|y ys IH]; intros Hs; simpl.
  - repeat constructor.
  - apply StronglySorted_inv in Hs as [Hys Hy].
    destruct (less y x) eqn:Hyx.
    + constructor; [by apply IH|].
      rewrite insert_sorted_perm. constructor; [by apply Hasym|done].
    + constructor; [by constructor|].
      constructor; [done|].
      eapply Forall_impl; [exact Hy|]. intros z Hz. simpl in Hz.
      destruct (less z x) eqn:Hzx; [|done].
      destruct (Hco z y x Hzx); congruence.
Qed.

Lemma insertion_sort_sorted {A} (less : A -> A -> bool) xs :
  StrictWeakOrder less ->
  StronglySorted (fun a b => less b a = false) (insertion_sort less xs).
Proof.
  intros Hless. induction xs as [|x xs IH]; simpl; [constructor|].
  by apply insert_sorted_sorted.
Qed.

#[export] Instance insertion_SliceSort : SliceSort := {|
  sort_slice := @insertion_sort;
  sort_slice_perm := @insertion_sort_perm;
  sort_slice_sorted := @insertion_sort_sorted
|}.

(** The comparison [Find] and [FindWithMapper] sort by. *)
Lemma Before_Start_StrictWeakOrder {In} `{Period In} :
  StrictWeakOrder (fun a b : In => Before (Start a) (Start b)).
Proof.
  unfold Before. split.
  - intros a b Hab. apply Z.ltb_lt in Hab. apply Z.ltb_ge. lia.
  - intros a b c Hac. apply Z.ltb_lt in Hac.
    destruct (Z.ltb_spec (Start a) (Start b)); [by left|].
    right. apply Z.ltb_lt. lia.
Qed.

(** ** Running the operations *)

Lemma excluded_run {In Out} (options : Options Out) (slot : Out)
    (st : State (Event In Out)) :
  exists st', excluded options slot st = Ok (filtered options slot, st')
              /\ heap st' = heap st.
Proof.
  unfold excluded, IsSetFilter, call_filter, filtered.
  destruct (Options_FilterFunc options); eexists; split; reflexivity.
Qed.

Lemma set_index_run {Ev A} (buf : list A) (j : nat) (x : A) (st : State Ev) :
  (j < length buf)%nat -> set_index buf j x st = Ok (<[j := x]> buf, st).
Proof. intros Hj. unfold set_index. by rewrite decide_True. Qed.

Lemma slice_to_run {Ev A} (buf : list A) (j : nat) (st : State Ev) :
  (j <= length buf)%nat -> slice_to buf j st = Ok (take j buf, st).
Proof. intros Hj. unfold slice_to. by rewrite decide_True. Qed.

Lemma take_S_insert {A} (buf : list A) (j : nat) (x : A) :
  (j < length buf)%nat -> take (S j) (<[j := x]> buf) = take j buf ++ [x].
Proof.
  intros Hj. erewrite take_S_r by (by apply list_lookup_insert_eq).
  by rewrite take_insert_ge.
Qed.

Ltac exec :=
  cbv beta delta [bind against createSlotFromP Drop Shorten Remain ToSlot Clone
    load store alloc emit ret]; simpl.

Lemma walk_length {In} (mapin : In -> Block) (keep : Slot -> bool)
    (inputs : list In) :
  forall t, (length (walk mapin keep t inputs).1 <= length inputs)%nat.
Proof.
  induction inputs as [|input rest IH]; intros t; simpl; [lia|].
  pose proof (IH t). pose proof (IH (span_shorten t (mapin input))).
  unfold kept. repeat case_match; simpl; lia.
Qed.

Ltac go :=
  repeat (progress (simpl;
    repeat match goal with
    | Ht : heap _ !! _ = Some _ |- _ => rewrite Ht
    | |- _ => rewrite lookup_insert_eq
    end)).

Section Run.
Context `{SliceSort}.
Context {In Out : Type} `{Period In} `{Zero Out}.
Variable mapin : In -> Block.
Variable mapout : Slot -> Out.
Variable options : Options Out.
Variable target : positive.

Let keep (s : Slot) : bool := negb (filtered options (mapout s)).

Lemma sweepWithMapper_run (inputs : list In) :
  forall (st : State (Event In Out)) (t : Span) (j : nat) (buf : list Out),
  heap st !! target = Some t ->
  (j + length inputs <= length buf)%nat ->
  exists st' buf',
    sweepWithMapper mapin mapout options target inputs j buf st
    = Ok ((j + length (walk mapin keep t inputs).1, buf')%nat, st')
    /\ heap st' = <[target := (walk mapin keep t inputs).2]> (heap st)
    /\ length buf' = length buf
    /\ take (j + length (walk mapin keep t inputs).1) buf'
       = take j buf ++ (mapout <$> (walk mapin keep t inputs).1).
Proof.
  induction inputs as [|input rest IH]; intros st t j buf Ht Hlen.
  - exists st, buf. simpl. rewrite Nat.add_0_r, app_nil_r, insert_id by done. done.
  - simpl in Hlen. simpl. exec. go.
    destruct (Contains (mapin input) t) eqn:Hc.
    { go. eexists _, buf.
      rewrite Nat.add_0_r, app_nil_r. done. }
    go.
    destruct (OverlapAtStart (mapin input) t) eqn:Hs.
    { go.
      edestruct (IH (mkState (<[target:=span_shorten t (mapin input)]> (heap st))
                       (trace st ++ [EvVisit input])))
        as (st' & buf' & Hrun & Hheap & Hl & Htake);
        [apply lookup_insert_eq | |].
      { instantiate (1 := buf). instantiate (1 := j). lia. }
      exists st', buf'. rewrite Hrun. simpl in Hheap.
      rewrite insert_insert_eq in Hheap. done. }
    go.
    destruct (IsContainedIn (mapin input) t) eqn:Hi.
    { go.
      set (st1 := mkState _ _).
      destruct (excluded_run options (mapout (createSlotFrom t (mapin input))) st1)
        as (st2 & Hex & Hheap2).
      rewrite Hex. unfold kept.
      assert (Hk : keep (createSlotFrom t (mapin input))
                   = negb (filtered options (mapout (createSlotFrom t (mapin input)))))
        by reflexivity.
      rewrite Hk. clear Hk.
      destruct (filtered options _) eqn:Hf; simpl.
      - destruct (IH st2 (span_shorten t (mapin input)) j buf)
          as (st' & buf' & Hrun & Hheap & Hl & Htake).
        { rewrite Hheap2. apply lookup_insert_eq. }
        { lia. }
        exists st', buf'. rewrite Hrun, Hheap, Hheap2. simpl.
        rewrite insert_insert_eq. done.
      - rewrite set_index_run by lia.
        destruct (IH st2 (span_shorten t (mapin input)) (S j)
                    (<[j:=mapout (createSlotFrom t (mapin input))]> buf))
          as (st' & buf' & Hrun & Hheap & Hl & Htake).
        { rewrite Hheap2. apply lookup_insert_eq. }
        { rewrite length_insert. lia. }
        exists st', buf'. rewrite Hrun, Hheap, Hheap2. simpl.
        rewrite insert_insert_eq, Nat.add_succ_r.
        rewrite length_insert in Hl. simpl in Htake.
        rewrite Htake, take_S_insert by lia.
        rewrite <- app_assoc. done. }
    go.
    destruct (OverlapAtEnd (mapin input) t) eqn:He.
    { go.
      set (st1 := mkState _ _).
      destruct (excluded_run options (mapout (createSlotFrom t (mapin input))) st1)
        as (st2 & Hex & Hheap2).
      rewrite Hex. unfold kept.
      assert (Hk : keep (createSlotFrom t (mapin input))
                   = negb (filtered options (mapout (createSlotFrom t (mapin input)))))
        by reflexivity.
      rewrite Hk. clear Hk.
      destruct (filtered options _) eqn:Hf; simpl.
      - exists st2, buf. rewrite Nat.add_0_r, app_nil_r, Hheap2. done.
      - rewrite set_index_run by lia.
        exists st2, (<[j:=mapout (createSlotFrom t (mapin input))]> buf).
        rewrite Hheap2, Nat.add_1_r, length_insert.
        rewrite take_S_insert by lia. done. }
    edestruct (IH (mkState (heap st) (trace st ++ [EvVisit input])))
      as (st' & buf' & Hrun & Hheap & Hl & Htake); [exact Ht | |].
    { instantiate (1 := buf). instantiate (1 := j). lia. }
    exists st', buf'. rewrite Hrun. done.
Qed.
End Run.

Section RunFind.
Context `{SliceSort}.
Context {In Out : Type} `{Period In} `{Zero Out}.
Variable mapin : In -> Block.
Variable mapout : Slot -> Out.

Lemma sort_slice_length {A} (less : A -> A -> bool) (xs : list A) :
  length (sort_slice less xs) = length xs.
Proof. apply Permutation_length, sort_slice_perm. Qed.

Lemma FindWithMapper_run (inputs : list In) (p : positive) (sp : Span)
    (opts : list (Option Out)) (st : State (Event In Out)) :
  heap st !! p = Some sp ->
  exists st',
    FindWithMapper inputs (Some p) mapin mapout opts st
    = Ok ((mapout <$> found mapin mapout (apply_opts opts) sp inputs,
           left_inputs sp inputs), st')
    /\ (forall q, is_Some (heap st !! q) -> heap st' !! q = heap st !! q).
Proof.
  intros Hp. unfold FindWithMapper, found, left_inputs. exec. rewrite Hp. simpl.
  destruct (span_remain sp) eqn:Hrem; simpl; [|by exists st].
  set (target := fresh (dom (heap st))).
  assert (Hfresh : forall q, is_Some (heap st !! q) -> target <> q).
  { intros q Hq <-. apply elem_of_dom in Hq. by apply is_fresh in Hq. }
  destruct inputs as [|input rest].
  { go.
    assert (Hnil : sort_slice (fun a b : In => Before (Start a) (Start b)) [] = [])
      by apply Permutation_nil_r, sort_slice_perm.
    rewrite Hnil. eexists; split; [done|]. simpl.
    intros q Hq. by rewrite lookup_insert_ne by by apply Hfresh. }
  go. unfold sort_Slice. exec. go.
  set (sorted := sort_slice _ (input :: rest)).
  set (st1 := mkState _ _).
  destruct (sweepWithMapper_run mapin mapout (apply_opts opts) target sorted
              st1 sp 0 (make (length sorted + 1)))
    as (st2 & buf & Hrun & Hheap & Hlen & Htake).
  { apply lookup_insert_eq. }
  { unfold make. rewrite length_replicate. lia. }
  fold target. rewrite Hrun. clear Hrun. unfold free_slots.
  set (keep := fun s : Slot => negb (filtered (apply_opts opts) (mapout s))) in *.
  destruct (walk mapin keep sp sorted) as [L t'] eqn:Hwalk.
  simpl in *. unfold make in Hlen. rewrite length_replicate in Hlen.
  assert (Hframe : forall q, is_Some (heap st !! q) -> heap st2 !! q = heap st !! q).
  { intros q Hq. rewrite Hheap. unfold st1. simpl. fold target.
    by rewrite !lookup_insert_ne by by apply Hfresh. }
  assert (Hroom : (length L <= length sorted)%nat).
  { pose proof (walk_length mapin keep sorted sp) as Hw.
    by rewrite Hwalk in Hw. }
  assert (Ht' : heap st2 !! target = Some t')
    by (rewrite Hheap; apply lookup_insert_eq).
  rewrite Ht'. simpl.
  destruct (span_remain t') eqn:Hrem'; simpl.
  2:{ rewrite slice_to_run by lia. rewrite Htake, app_nil_r. by exists st2. }
  rewrite Ht'. simpl.
  destruct (excluded_run (In:=In) (apply_opts opts) (mapout (span_to_slot t')) st2)
    as (st3 & Hex & Hheap3).
  rewrite Hex. unfold kept.
  assert (Hk : keep (span_to_slot t')
               = negb (filtered (apply_opts opts) (mapout (span_to_slot t'))))
    by reflexivity.
  rewrite Hk. clear Hk.
  destruct (filtered _ _); simpl.
  { rewrite slice_to_run by lia. rewrite Htake, app_nil_r.
    exists st3. split; [done|]. by rewrite Hheap3. }
  rewrite set_index_run by lia. rewrite slice_to_run by (rewrite length_insert; lia).
  rewrite take_S_insert, Htake, fmap_app by lia.
  exists st3. split; [done|]. by rewrite Hheap3.
Qed.
End RunFind.

(** ** [Find] is [FindWithMapper] without conversions *)

Lemma bind_ext {Ev A B} (m : M Ev A) (k1 k2 : A -> M Ev B) (st : State Ev) :
  (forall a st', k1 a st' = k2 a st') -> bind m k1 st = bind m k2 st.
Proof. intros Hk. unfold bind. destruct (m st) as [[a st']|]; [apply Hk|done]. Qed.

Ltac same_run IH :=
  repeat first
    [ reflexivity
    | apply IH
    | apply bind_ext; intros
    | progress cbv zeta
    | match goal with
      | |- (if ?b then _ else _) _ = (if ?b then _ else _) _ => destruct b
      | |- (let (_, _) := ?p in _) _ = (let (_, _) := ?p in _) _ => destruct p
      end ].

Lemma sweep_eq `{SliceSort} (options : Options (option Slot)) (target : positive)
    (blocks : list Block) :
  forall j slots st,
    sweepWithMapper id Some options target blocks j slots st
    = sweep options target blocks j slots st.
Proof.
  induction blocks as [|block rest IH]; intros j slots st; [done|].
  simpl. cbv beta zeta delta [id]. same_run IH.
Qed.

Lemma Find_eq `{SliceSort} (blocks : list Block) (span : option positive)
    (opts : list (Option (option Slot))) (st : State (Event Block (option Slot))) :
  FindWithMapper blocks span id Some opts st = Find blocks span opts st.
Proof.
  unfold FindWithMapper, Find. destruct span as [span|]; [|done].
  same_run sweep_eq.
Qed.

(** ** The slots of a walk *)

Ltac order :=
  unfold Contains, OverlapAtStart, IsContainedIn, OverlapAtEnd, well_formed,
    covers, span_remain, Before in *;
  simpl in *;
  repeat match goal with
  | H : _ = true |- _ =>
      progress rewrite ?andb_true_iff, ?Z.leb_le, ?Z.ltb_lt in H
  | H : _ = false |- _ =>
      progress rewrite ?andb_false_iff, ?Z.leb_gt, ?Z.ltb_ge in H
  end.

Ltac solve_leaf :=
  solve [ assumption | lia | exfalso; lia
        | split; solve_leaf | left; solve_leaf | right; solve_leaf ].

Ltac cases_lia :=
  split; intros; destruct_and?; destruct_or?; destruct_and?;
  repeat match goal with
  | H : ~ (?a <= ?x /\ ?x < ?b) |- _ =>
      assert (x < a \/ b <= x) by lia; clear H
  end;
  destruct_or?; solve_leaf.

Section FreeSlots.
Context {In : Type}.
Variable mapin : In -> Block.
Variable keep : Slot -> bool.

Lemma free_slots_nil (t : Span) :
  free_slots mapin keep t []
  = if span_remain t then kept keep (span_to_slot t) else [].
Proof. done. Qed.

Lemma free_slots_cons (t : Span) (input : In) (rest : list In) :
  free_slots mapin keep t (input :: rest)
  = if Contains (mapin input) t then []
    else if OverlapAtStart (mapin input) t
    then free_slots mapin keep (span_shorten t (mapin input)) rest
    else if IsContainedIn (mapin input) t
    then kept keep (createSlotFrom t (mapin input))
         ++ free_slots mapin keep (span_shorten t (mapin input)) rest
    else if OverlapAtEnd (mapin input) t
    then kept keep (createSlotFrom t (mapin input))
    else free_slots mapin keep t rest.
Proof.
  assert (Hdrop : span_remain (span_drop t) = false)
    by (unfold span_remain, span_drop, Before; simpl; apply Z.ltb_irrefl).
  unfold free_slots. simpl.
  destruct (Contains _ _); simpl; [by rewrite Hdrop|].
  destruct (OverlapAtStart _ _); simpl; [done|].
  destruct (IsContainedIn _ _); simpl; [by rewrite <- app_assoc|].
  destruct (OverlapAtEnd _ _); simpl; [|done].
  by rewrite Hdrop, app_nil_r.
Qed.

(** Every slot lies in the span it was cut from, is not empty, and ends
    before the next one starts. *)
Lemma free_slots_inv (inputs : list In) :
  Forall (fun input => well_formed (mapin input)) inputs ->
  forall t,
    Forall (fun s => Start t <= Start s /\ Start s < End s /\ End s <= End t)
      (free_slots mapin keep t inputs)
    /\ StronglySorted (fun a b => End a < Start b) (free_slots mapin keep t inputs).
Proof.
  induction 1 as [|input rest Hwf _ IH]; intros t.
  - rewrite free_slots_nil. unfold kept.
    repeat case_match; repeat constructor; order; simpl; lia.
  - rewrite free_slots_cons.
    destruct (IH t) as [Ht Hst].
    destruct (IH (span_shorten t (mapin input))) as [Hs Hss].
    destruct (Contains _ _) eqn:Hc; [by repeat constructor|].
    destruct (OverlapAtStart _ _) eqn:Ho.
    { split; [|done]. eapply Forall_impl; [exact Hs|].
      intros s. order. lia. }
    destruct (IsContainedIn _ _) eqn:Hi.
    { assert (Hs' : Forall (fun s => Start t <= Start s /\ Start s < End s
                                     /\ End s <= End t)
                      (free_slots mapin keep (span_shorten t (mapin input)) rest)).
      { eapply Forall_impl; [exact Hs|]. intros s. order. lia. }
      unfold kept. destruct (keep _); simpl; [|done].
      split.
      - constructor; [order; simpl; lia|done].
      - constructor; [done|].
        eapply Forall_impl; [exact Hs|]. intros s. order. lia. }
    destruct (OverlapAtEnd _ _) eqn:He; [|done].
    unfold kept. destruct (keep _); repeat constructor; order; simpl; lia.
Qed.
End FreeSlots.

(** Without a filter the slots are the points of the span no block covers,
    when the blocks come in ascending order of [Start]. *)
Lemma free_slots_cover {In} (mapin : In -> Block) (inputs : list In) :
  Forall (fun input => well_formed (mapin input)) inputs ->
  StronglySorted (fun a b => Start (mapin a) <= Start (mapin b)) inputs ->
  forall (t : Span) (x : Time),
    Exists (covers x) (free_slots mapin (fun _ => true) t inputs)
    <-> covers x t /\ Forall (fun input => ~ covers x (mapin input)) inputs.
Proof.
  induction 1 as [|input rest Hwf _ IH]; intros Hsorted t x.
  - rewrite free_slots_nil. unfold kept.
    destruct (span_remain t) eqn:Hrem.
    + rewrite Exists_cons, Exists_nil. unfold covers. simpl.
      split; [intros [?|[]]; by split | intros [? _]; by left].
    + rewrite Exists_nil. split; [done|]. intros [Hx _]. order. lia.
  - apply StronglySorted_inv in Hsorted as [Hsorted Hfirst].
    specialize (IH Hsorted).
    rewrite free_slots_cons, Forall_cons.
    assert (Hlater : Start (mapin input) <= x \/
                     Forall (fun i => ~ covers x (mapin i)) rest).
    { destruct (Z.le_gt_cases (Start (mapin input)) x); [by left|right].
      eapply Forall_impl; [exact Hfirst|]. intros i Hi [? ?]. simpl in *. lia. }
    set (F := Forall (fun i => ~ covers x (mapin i)) rest) in *.
    assert (HF : forall t, Exists (covers x) (free_slots mapin (fun _ => true) t rest)
                           <-> covers x t /\ F) by (intros; apply IH).
    clearbody F. clear IH Hfirst Hsorted.
    destruct (Contains _ _) eqn:Hc.
    { rewrite Exists_nil. split; [done|]. intros (Hx & Hb & _).
      apply Hb. order. lia. }
    destruct (OverlapAtStart _ _) eqn:Ho.
    { rewrite HF. clear HF. order. cases_lia. }
    destruct (IsContainedIn _ _) eqn:Hi.
    { unfold kept. rewrite Exists_app, Exists_cons, Exists_nil, HF.
      clear HF. order. cases_lia. }
    destruct (OverlapAtEnd _ _) eqn:He.
    { unfold kept. rewrite Exists_cons, Exists_nil. clear HF. order. cases_lia. }
    rewrite HF. clear HF. order. cases_lia.
Qed.

(** A filter only removes slots. *)
Lemma free_slots_filter {In} (mapin : In -> Block) (keep : Slot -> bool)
    (inputs : list In) :
  forall t, free_slots mapin keep t inputs
            = List.filter keep (free_slots mapin (fun _ => true) t inputs).
Proof.
  induction inputs as [|input rest IH]; intros t.
  - rewrite !free_slots_nil. unfold kept.
    destruct (span_remain t); simpl; [|done]. by destruct (keep _).
  - rewrite !free_slots_cons. unfold kept.
    destruct (Contains _ _); [done|].
    destruct (OverlapAtStart _ _); [done|].
    destruct (IsContainedIn _ _).
    { simpl. rewrite <- IH. by destruct (keep _). }
    destruct (OverlapAtEnd _ _); [|done].
    simpl. by destruct (keep _).
Qed.

(** ** The slots of a call *)

Lemma StronglySorted_weaken {A} (R1 R2 : A -> A -> Prop) (l : list A) :
  (forall a b, R1 a b -> R2 a b) -> StronglySorted R1 l -> StronglySorted R2 l.
Proof.
  intros HR. induction 1 as [|x l Hl IH Hx]; constructor; [done|].
  eapply Forall_impl; [exact Hx|]. intros b. apply HR.
Qed.

Section Found.
Context `{SliceSort}.

Lemma Find_run (blocks : list Block) (p : positive) (sp : Span)
    (opts : list (Option (option Slot)))
    (st : State (Event Block (option Slot))) :
  heap st !! p = Some sp ->
  exists st',
    Find blocks (Some p) opts st
    = Ok ((Some <$> found id Some (apply_opts opts) sp blocks,
           left_inputs sp blocks), st')
    /\ (forall q, is_Some (heap st !! q) -> heap st' !! q = heap st !! q).
Proof. intros Hp. rewrite <- Find_eq. by apply FindWithMapper_run. Qed.

Lemma sort_slice_by_Start {In} `{Period In} (inputs : list In) :
  StronglySorted (fun a b => Start a <= Start b)
    (sort_slice (fun a b => Before (Start a) (Start b)) inputs).
Proof.
  eapply StronglySorted_weaken;
    [|apply sort_slice_sorted, Before_Start_StrictWeakOrder].
  intros a b. unfold Before. simpl. rewrite Z.ltb_ge. done.
Qed.

Lemma found_inv {In Out} `{Period In} (mapin : In -> Block) (mapout : Slot -> Out)
    (options : Options Out) (sp : Span) (inputs : list In) :
  Forall (fun input => well_formed (mapin input)) inputs ->
  Forall (fun s => Start sp <= Start s /\ Start s < End s /\ End s <= End sp)
    (found mapin mapout options sp inputs)
  /\ StronglySorted (fun a b => End a < Start b)
       (found mapin mapout options sp inputs).
Proof.
  intros Hwf. unfold found.
  destruct (span_remain sp) eqn:Hrem; [|by repeat constructor].
  destruct inputs as [|input rest].
  { repeat constructor; order; simpl; lia. }
  apply free_slots_inv. by rewrite sort_slice_perm.
Qed.

Lemma found_cover (sp : Span) (blocks : list Block) (x : Time) :
  Forall well_formed blocks ->
  Exists (covers x) (found id Some (apply_opts []) sp blocks)
  <-> covers x sp /\ Forall (fun block => ~ covers x block) blocks.
Proof.
  intros Hwf. unfold found.
  destruct (span_remain sp) eqn:Hrem.
  2:{ rewrite Exists_nil. split; [done|]. intros [Hx _]. order. lia. }
  destruct blocks as [|block rest].
  { rewrite Exists_cons, Exists_nil, Forall_nil. unfold covers. simpl. tauto. }
  set (sorted := sort_slice _ (block :: rest)).
  assert (Hperm : sorted ≡ₚ block :: rest) by apply sort_slice_perm.
  change (Exists (covers x) (free_slots id (fun _ => true) sp sorted)
          <-> covers x sp /\ Forall (fun b => ~ covers x b) (block :: rest)).
  rewrite <- Hperm.
  apply (free_slots_cover id sorted).
  - by rewrite Hperm.
  - apply sort_slice_by_Start.
Qed.
End Found.

Lemma StronglySorted_lookup_lt {A} (R : A -> A -> Prop) (l : list A) :
  StronglySorted R l ->
  forall (i j : nat) (a b : A),
    (i < j)%nat -> l !! i = Some a -> l !! j = Some b -> R a b.
Proof.
  induction 1 as [|x l Hl IH Hx]; intros i j a b Hij Ha Hb; [done|].
  destruct j as [|j]; [lia|]. simpl in Hb.
  destruct i as [|i]; simpl in Ha.
  - injection Ha as <-. rewrite Forall_forall in Hx.
    apply Hx. by eapply list_elem_of_lookup_2.
  - apply (IH i j); [lia|done..].
Qed.

Lemma separated_ordered (slots : list Slot) :
  Forall well_formed slots ->
  StronglySorted (fun a b => End a < Start b) slots ->
  StronglySorted (fun a b => Start a < Start b) slots /\ pairwise_disjoint slots.
Proof.
  intros Hwf Hsep. split.
  - induction Hsep as [|a l Hl IH Ha]; [constructor|].
    apply Forall_cons in Hwf as [Hwa Hwl].
    constructor; [by apply IH|].
    eapply Forall_impl; [exact Ha|]. intros b. unfold well_formed in Hwa. simpl in *. lia.
  - intros i j a b Hij Ha Hb. unfold disjoint.
    destruct (Nat.lt_total i j) as [Hlt|[?|Hlt]]; [|done|].
    + left. pose proof (StronglySorted_lookup_lt _ _ Hsep i j a b Hlt Ha Hb).
      simpl in *. lia.
    + right. pose proof (StronglySorted_lookup_lt _ _ Hsep j i b a Hlt Hb Ha).
      simpl in *. lia.
Qed.

(** ** The scenarios of [finder_test.go], run *)

Example test_no_blocks :
  run_Find [] (Some (0, 1)) [WithFilter never] = Ok [h 0 1].
Proof. reflexivity. Qed.

Example test_nil_span : run_Find [] None [WithFilter never] = Ok [].
Proof. reflexivity. Qed.

Example test_empty_span :
  run_Find [(0, 1)] (Some (0, 0)) [WithFilter never] = Ok [].
Proof. reflexivity. Qed.

Example test_block_before :
  run_Find [(-1, 0)] (Some (0, 8)) [WithFilter never] = Ok [h 0 8].
Proof. reflexivity. Qed.

Example test_overlap_at_start :
  run_Find [(-1, 1)] (Some (0, 8)) [WithFilter never] = Ok [h 1 8].
Proof. reflexivity. Qed.

Example test_contained :
  run_Find [(1, 5)] (Some (0, 8)) [WithFilter never] = Ok [h 0 1; h 5 8].
Proof. reflexivity. Qed.

Example test_block_contains_span :
  run_Find [(0, 8)] (Some (0, 8)) [WithFilter never] = Ok [].
Proof. reflexivity. Qed.

Example test_overlap_at_end :
  run_Find [(3, 9)] (Some (0, 8)) [WithFilter never] = Ok [h 0 3].
Proof. reflexivity. Qed.

Example test_block_after :
  run_Find [(8, 10)] (Some (0, 8)) [WithFilter never] = Ok [h 0 8].
Proof. reflexivity. Qed.

Example test_two_contained :
  run_Find [(1, 2); (6, 7)] (Some (0, 8)) [WithFilter never]
  = Ok [h 0 1; h 2 6; h 7 8].
Proof. reflexivity. Qed.

Example test_two_overlapping :
  run_Find [(1, 4); (2, 5)] (Some (0, 8)) [WithFilter never] = Ok [h 0 1; h 5 8].
Proof. reflexivity. Qed.

Example test_contained_with_filter :
  run_Find [(1, 5)] (Some (0, 8)) [WithFilter (shorter_than 2)] = Ok [h 5 8].
Proof. reflexivity. Qed.

Example test_overlap_at_end_with_filter :
  run_Find [(3, 9)] (Some (0, 8)) [WithFilter (shorter_than 4)] = Ok [].
Proof. reflexivity. Qed.

Example test_block_after_with_filter :
  run_Find [(9, 10)] (Some (0, 8)) [WithFilter (longer_than 2)] = Ok [].
Proof. reflexivity. Qed.

(** * The properties of [Find] and [FindWithMapper] *)

Lemma free_slots_length {In} (mapin : In -> Block) (keep : Slot -> bool)
    (t : Span) (inputs : list In) :
  (length (free_slots mapin keep t inputs) <= length inputs + 1)%nat.
Proof.
  unfold free_slots. rewrite length_app.
  pose proof (walk_length mapin keep inputs t).
  unfold kept. repeat case_match; simpl; lia.
Qed.

Lemma found_length `{SliceSort} {In Out} `{Period In} (mapin : In -> Block)
    (mapout : Slot -> Out) (options : Options Out) (sp : Span) (inputs : list In) :
  (length (found mapin mapout options sp inputs) <= length inputs + 1)%nat.
Proof.
  unfold found. destruct (span_remain sp); [|simpl; lia].
  destruct inputs as [|input rest]; [simpl; lia|].
  etrans; [apply free_slots_length|]. by rewrite sort_slice_length.
Qed.

Lemma filter_fmap {A B} (f : A -> B) (p : B -> bool) (l : list A) :
  List.filter p (f <$> l) = f <$> List.filter (fun a => p (f a)) l.
Proof.
  induction l as [|a l IH]; simpl; [done|].
  destruct (p (f a)); simpl; [f_equal|]; exact IH.
Qed.

(** C1. Coverage: for a span with [Start < End] and well-formed blocks, a
    call of [Find] without options returns slots such that every point of
    the span lies in a returned slot or in a block, and every point of a
    returned slot lies in the span and in no block. *)
Theorem Find_covers_span `{SliceSort} (blocks : list Block) (p : positive)
    (sp : Span) (st : State (Event Block (option Slot))) :
  heap st !! p = Some sp ->
  well_formed sp ->
  Forall well_formed blocks ->
  exists slots blocks' st',
    Find blocks (Some p) [] st = Ok ((Some <$> slots, blocks'), st')
    /\ (forall x, covers x sp ->
                  Exists (covers x) slots \/ Exists (covers x) blocks)
    /\ (forall x, Exists (covers x) slots ->
                  covers x sp /\ ~ Exists (covers x) blocks).
Proof.
  intros Hp Hsp Hwf.
  destruct (Find_run blocks p sp [] st Hp) as (st' & Hrun & _).
  eexists _, _, st'. split; [exact Hrun|].
  split; intros x Hx.
  - destruct (decide (Exists (covers x) blocks)) as [|Hno]; [by right|left].
    apply found_cover; [done|]. split; [done|].
    apply Forall_forall. intros block Hin Hb. apply Hno, Exists_exists. eauto.
  - apply found_cover in Hx as [Hx Hno]; [|done]. split; [done|].
    rewrite Forall_forall in Hno. intros (block & Hin & Hb)%Exists_exists.
    by apply (Hno block).
Qed.

Lemma Find_covers_span_witness :
  exists slots blocks' st',
    Find sample_blocks (Some 1%positive) [] sample_state
    = Ok ((Some <$> slots, blocks'), st')
    /\ (forall x, covers x sample_span ->
                  Exists (covers x) slots \/ Exists (covers x) sample_blocks)
    /\ (forall x, Exists (covers x) slots ->
                  covers x sample_span /\ ~ Exists (covers x) sample_blocks).
Proof.
  apply (Find_covers_span sample_blocks 1%positive sample_span sample_state).
  - reflexivity.
  - reflexivity.
  - repeat constructor.
Defined.

(** C2. Disjointness, ordering and non-degeneracy: for any span (also [nil]),
    well-formed blocks and any options, the slots [Find] returns satisfy
    [Start < End], are strictly increasing in [Start] and are pairwise
    disjoint. *)
Theorem Find_slots_ordered `{SliceSort} (blocks : list Block)
    (span : option positive) (opts : list (Option (option Slot)))
    (st : State (Event Block (option Slot))) :
  valid_span st span ->
  Forall well_formed blocks ->
  exists slots blocks' st',
    Find blocks span opts st = Ok ((Some <$> slots, blocks'), st')
    /\ Forall well_formed slots
    /\ StronglySorted (fun a b => Start a < Start b) slots
    /\ pairwise_disjoint slots.
Proof.
  intros Hspan Hwf. destruct span as [p|].
  2:{ exists [], blocks, st. split; [done|].
      split; [constructor|]. split; [constructor|]. by intros i j a b _ ?. }
  destruct Hspan as [sp Hp].
  destruct (Find_run blocks p sp opts st Hp) as (st' & Hrun & _).
  eexists _, _, st'. split; [exact Hrun|].
  destruct (found_inv id Some (apply_opts opts) sp blocks Hwf) as [Hin Hsep].
  assert (Hnd : Forall well_formed (found id Some (apply_opts opts) sp blocks)).
  { eapply Forall_impl; [exact Hin|]. intros s (_ & ? & _). done. }
  split; [done|]. by apply separated_ordered.
Qed.

Lemma Find_slots_ordered_witness :
  exists slots blocks' st',
    Find sample_blocks (Some 1%positive) [WithFilter (shorter_than 2)] sample_state
    = Ok ((Some <$> slots, blocks'), st')
    /\ Forall well_formed slots
    /\ StronglySorted (fun a b => Start a < Start b) slots
    /\ pairwise_disjoint slots.
Proof.
  apply (Find_slots_ordered sample_blocks (Some 1%positive)
           [WithFilter (shorter_than 2)] sample_state).
  - exists sample_span. reflexivity.
  - repeat constructor.
Defined.

(** C3. An empty block collection: the claim is that [Find] returns the whole
    span as one slot subject to the filter.  [Find] returns before it
    reaches the filter: with no blocks and a filter that rejects every slot
    the result is still the whole span. *)
Theorem Find_no_blocks_skips_filter `{SliceSort} :
  run_Find [] (Some (0, 8)) [WithFilter always] = Ok [h 0 8].
Proof. reflexivity. Qed.

(** With a block the span does not meet, the same slot goes through the
    filter and is rejected. *)
Example Find_block_after_applies_filter :
  run_Find [(9, 10)] (Some (0, 8)) [WithFilter always] = Ok [].
Proof. reflexivity. Qed.

(** C4. The filter exclusion law: the claim is that [Find] with a filter [f]
    returns what [Find] without a filter returns, less the slots [f]
    rejects.  With no blocks it does not: both calls return the whole span,
    which [f] rejects. *)
Theorem Find_filter_law_fails_without_blocks `{SliceSort} :
  run_Find [] (Some (0, 8)) [] = Ok [h 0 8]
  /\ List.filter (fun s => negb (every_slot s)) [h 0 8] = []
  /\ run_Find [] (Some (0, 8)) [WithFilter always] = Ok [h 0 8].
Proof. repeat split. Qed.

(** The law holds of every call with at least one block. *)
Lemma Find_filter_law `{SliceSort} (blocks : list Block) (p : positive)
    (sp : Span) (f : option Slot -> bool)
    (st : State (Event Block (option Slot))) :
  heap st !! p = Some sp ->
  blocks <> [] ->
  exists slots blocks' st1 st2,
    Find blocks (Some p) [] st = Ok ((slots, blocks'), st1)
    /\ Find blocks (Some p) [WithFilter (Some f)] st
       = Ok ((List.filter (fun s => negb (f s)) slots, blocks'), st2).
Proof.
  intros Hp Hne.
  destruct (Find_run blocks p sp [] st Hp) as (st1 & Hrun1 & _).
  destruct (Find_run blocks p sp [WithFilter (Some f)] st Hp) as (st2 & Hrun2 & _).
  eexists _, _, st1, st2. split; [exact Hrun1|].
  rewrite Hrun2. do 3 f_equal.
  unfold found. destruct (span_remain sp); [|done].
  destruct blocks as [|block rest]; [done|].
  rewrite filter_fmap. f_equal. apply free_slots_filter.
Qed.

(** C5. [FindWithMapper] with the identity for [mapin], with the identity of
    slot pointers for [mapout] and the same options is [Find]: same result,
    same slice left to the caller, same state. *)
Theorem FindWithMapper_identity `{SliceSort} (blocks : list Block)
    (span : option positive) (opts : list (Option (option Slot)))
    (st : State (Event Block (option Slot))) :
  FindWithMapper blocks span id Some opts st = Find blocks span opts st.
Proof. apply Find_eq. Qed.

(** C6. No room: when the span is [nil] or has [Start >= End], [Find] and
    [FindWithMapper] return the empty list, leave the caller's slice as it
    was and leave the state as it was: no call of [sort.Slice], no input
    reached, no call of the filter. *)
Theorem Find_no_room `{SliceSort} {In Out} `{Period In} `{Zero Out}
    (blocks : list Block) (inputs : list In) (span : option positive)
    (mapin : In -> Block) (mapout : Slot -> Out)
    (opts : list (Option (option Slot))) (opts' : list (Option Out))
    (st : State (Event Block (option Slot))) (st' : State (Event In Out)) :
  no_room st span ->
  no_room st' span ->
  Find blocks span opts st = Ok (([], blocks), st)
  /\ FindWithMapper inputs span mapin mapout opts' st' = Ok (([], inputs), st').
Proof.
  intros Hst Hst'. destruct span as [p|]; [|done].
  destruct Hst as (sp & Hp & Hsp), Hst' as (sp' & Hp' & Hsp').
  unfold Find, FindWithMapper. exec. rewrite Hp, Hp'. simpl.
  assert (Hrem : forall s : Span, End s <= Start s -> span_remain s = false).
  { intros s Hs. unfold span_remain, Before. apply Z.ltb_ge. exact Hs. }
  by rewrite !Hrem.
Qed.

Lemma Find_no_room_witness :
  Find sample_blocks (Some 1%positive) [WithFilter always]
    (mkState {[ 1%positive := mkSpan 8 8 ]} [])
  = Ok (([], sample_blocks), mkState {[ 1%positive := mkSpan 8 8 ]} [])
  /\ FindWithMapper sample_blocks (Some 1%positive) id Some [WithFilter always]
       (mkState {[ 1%positive := mkSpan 8 8 ]} [])
     = Ok (([], sample_blocks), mkState {[ 1%positive := mkSpan 8 8 ]} []).
Proof.
  apply (Find_no_room sample_blocks sample_blocks (Some 1%positive) id Some
           [WithFilter always] [WithFilter always]).
  - exists (mkSpan 8 8). split; [reflexivity|]. simpl. lia.
  - exists (mkSpan 8 8). split; [reflexivity|]. simpl. lia.
Defined.

(** C7, as the claim states it, fails: the block [[0,8)] of [blocks_test.go]
    and the period [[0,9)] are well formed, and both [IsContainedIn] and
    [OverlapAtStart] hold of them, as [TestIsContainedIn] and
    [TestOverlapAtStart] expect. *)
Lemma predicates_overlap :
  well_formed (NewBlockWithoutValidating 0 8)
  /\ well_formed (mkSpan 0 9)
  /\ IsContainedIn (NewBlockWithoutValidating 0 8) (mkSpan 0 9) = true
  /\ OverlapAtStart (NewBlockWithoutValidating 0 8) (mkSpan 0 9) = true.
Proof. repeat split. Qed.

(** C7, amended. For a well-formed block and a period with [Start < End], at
    most one of [Contains], [OverlapAtStart], [IsContainedIn] and
    [OverlapAtEnd] holds exactly when the block and the period share no end
    point; when they share one, at least two hold. *)
Theorem predicates_exclusive {P} `{Period P} (block : Block) (p : P) :
  well_formed block ->
  well_formed p ->
  ((holding block p <= 1)%nat <-> Start block <> Start p /\ End block <> End p).
Proof.
  unfold well_formed, holding, Contains, OverlapAtStart, IsContainedIn,
    OverlapAtEnd.
  set (bs := Start block). set (be := End block).
  set (ps := Start p). set (pe := End p).
  clearbody bs be ps pe. intros Hb Hp.
  destruct (Z.leb_spec bs ps), (Z.leb_spec pe be), (Z.leb_spec ps bs),
    (Z.leb_spec be pe), (Z.ltb_spec ps be), (Z.ltb_spec bs pe);
    simpl; split; intros; try lia.
Qed.

Lemma predicates_exclusive_witness :
  (holding (NewBlockWithoutValidating 1%Z 5%Z) (mkSpan 0%Z 8%Z) <= 1)%nat
  <-> Start (NewBlockWithoutValidating 1 5) <> Start (mkSpan 0 8)
      /\ End (NewBlockWithoutValidating 1 5) <> End (mkSpan 0 8).
Proof.
  apply (predicates_exclusive (NewBlockWithoutValidating 1 5) (mkSpan 0 8));
    reflexivity.
Defined.

(** C8. The caller's span: a call of [Find] or of [FindWithMapper] with a
    span that is not [nil] returns, and the span the caller's pointer leads
    to is after the call what it was before. *)
Theorem Find_keeps_caller_span `{SliceSort} {In Out} `{Period In} `{Zero Out}
    (blocks : list Block) (inputs : list In) (p : positive) (sp : Span)
    (mapin : In -> Block) (mapout : Slot -> Out)
    (opts : list (Option (option Slot))) (opts' : list (Option Out))
    (st : State (Event Block (option Slot))) (st' : State (Event In Out)) :
  heap st !! p = Some sp ->
  heap st' !! p = Some sp ->
  (exists result after, Find blocks (Some p) opts st = Ok (result, after)
                        /\ heap after !! p = Some sp)
  /\ (exists result after,
        FindWithMapper inputs (Some p) mapin mapout opts' st' = Ok (result, after)
        /\ heap after !! p = Some sp).
Proof.
  intros Hp Hp'. split.
  - destruct (Find_run blocks p sp opts st Hp) as (after & Hrun & Hframe).
    eexists _, after. split; [exact Hrun|]. by rewrite Hframe.
  - destruct (FindWithMapper_run mapin mapout inputs p sp opts' st' Hp')
      as (after & Hrun & Hframe).
    eexists _, after. split; [exact Hrun|]. by rewrite Hframe.
Qed.

Lemma Find_keeps_caller_span_witness :
  (exists result after,
     Find sample_blocks (Some 1%positive) [WithFilter (shorter_than 2)] sample_state
     = Ok (result, after)
     /\ heap after !! 1%positive = Some sample_span)
  /\ (exists result after,
        FindWithMapper sample_blocks (Some 1%positive) id Some
          [WithFilter (shorter_than 2)] sample_state
        = Ok (result, after)
        /\ heap after !! 1%positive = Some sample_span).
Proof.
  apply (Find_keeps_caller_span sample_blocks sample_blocks 1%positive
           sample_span id Some); reflexivity.
Defined.

(** C9. The buffer: a call of [Find] with [n] blocks returns (no write
    [slots[j]] and no [slots[:j]] is out of range) at most [n+1] slots; and
    the loop, started at [j] with room for the blocks left in [slots], ends
    with [j] advanced by at most one for each block and [slots] as long as
    it was. *)
Theorem Find_buffer_in_bounds `{SliceSort} (blocks : list Block)
    (span : option positive) (opts : list (Option (option Slot)))
    (st : State (Event Block (option Slot))) :
  valid_span st span ->
  (exists slots blocks' st',
     Find blocks span opts st = Ok ((slots, blocks'), st')
     /\ (length slots <= length blocks + 1)%nat)
  /\ (forall (target : positive) (t : Span) (j : nat)
             (slots : list (option Slot))
             (st1 : State (Event Block (option Slot))),
        heap st1 !! target = Some t ->
        (j + length blocks <= length slots)%nat ->
        exists j' slots' st',
          sweep (apply_opts opts) target blocks j slots st1
          = Ok ((j', slots'), st')
          /\ (j <= j' <= j + length blocks)%nat
          /\ length slots' = length slots).
Proof.
  intros Hspan. split.
  - destruct span as [p|]; [|exists [], blocks, st; split; [done|simpl; lia]].
    destruct Hspan as [sp Hp].
    destruct (Find_run blocks p sp opts st Hp) as (st' & Hrun & _).
    eexists _, _, st'. split; [exact Hrun|].
    rewrite length_fmap. apply found_length.
  - intros target t j slots st1 Ht Hroom.
    destruct (sweepWithMapper_run id Some (apply_opts opts) target blocks
                st1 t j slots Ht Hroom) as (st' & slots' & Hrun & _ & Hlen & _).
    rewrite sweep_eq in Hrun.
    eexists _, slots', st'. split; [exact Hrun|]. split; [|done].
    pose proof (walk_length id
      (fun s => negb (filtered (apply_opts opts) (Some s))) blocks t).
    lia.
Qed.

Lemma Find_buffer_in_bounds_witness :
  (exists slots blocks' st',
     Find sample_blocks (Some 1%positive) [] sample_state
     = Ok ((slots, blocks'), st')
     /\ (length slots <= length sample_blocks + 1)%nat)
  /\ (forall (target : positive) (t : Span) (j : nat)
             (slots : list (option Slot))
             (st1 : State (Event Block (option Slot))),
        heap st1 !! target = Some t ->
        (j + length sample_blocks <= length slots)%nat ->
        exists j' slots' st',
          sweep (apply_opts []) target sample_blocks j slots st1
          = Ok ((j', slots'), st')
          /\ (j <= j' <= j + length sample_blocks)%nat
          /\ length slots' = length slots).
Proof.
  apply (Find_buffer_in_bounds sample_blocks (Some 1%positive) [] sample_state).
  exists sample_span. reflexivity.
Defined.

(** C10. Inside the span: for a span that is not [nil], well-formed blocks
    and any options, every slot [Find] returns starts no earlier than the
    span and ends no later. *)
Theorem Find_slots_inside_span `{SliceSort} (blocks : list Block) (p : positive)
    (sp : Span) (opts : list (Option (option Slot)))
    (st : State (Event Block (option Slot))) :
  heap st !! p = Some sp ->
  Forall well_formed blocks ->
  exists slots blocks' st',
    Find blocks (Some p) opts st = Ok ((Some <$> slots, blocks'), st')
    /\ Forall (fun s => Start sp <= Start s /\ End s <= End sp) slots.
Proof.
  intros Hp Hwf.
  destruct (Find_run blocks p sp opts st Hp) as (st' & Hrun & _).
  eexists _, _, st'. split; [exact Hrun|].
  destruct (found_inv id Some (apply_opts opts) sp blocks Hwf) as [Hin _].
  eapply Forall_impl; [exact Hin|]. intros s (? & _ & ?). done.
Qed.

Lemma Find_slots_inside_span_witness :
  exists slots blocks' st',
    Find sample_blocks (Some 1%positive) [WithFilter (shorter_than 2)] sample_state
    = Ok ((Some <$> slots, blocks'), st')
    /\ Forall (fun s => Start sample_span <= Start s /\ End s <= End sample_span)
         slots.
Proof.
  apply (Find_slots_inside_span sample_blocks 1%positive sample_span
           [WithFilter (shorter_than 2)] sample_state).
  - reflexivity.
  - repeat constructor.
Defined.

(** * More of [finder.go] *)

(** ** Lists of slots that cover the same points *)

(** Canonical lists of slots: two lists of non-empty slots, each slot ending
    before the next starts, that cover the same points are the same list. *)
Lemma separated_head_least (a : Slot) (l : list Slot) (x : Time) :
  StronglySorted (fun a b => End a < Start b) (a :: l) ->
  Forall well_formed (a :: l) ->
  Exists (covers x) (a :: l) -> Start a <= x.
Proof.
  intros [_ Hsep]%StronglySorted_inv [Hwa Hwl]%Forall_cons Hx.
  apply Exists_cons in Hx as [[? _]|Hx]; [done|].
  apply Exists_exists in Hx as (c & Hc & [Hcx _]).
  rewrite Forall_forall in Hsep. specialize (Hsep c Hc).
  unfold well_formed in Hwa. simpl in *. lia.
Qed.

Lemma separated_tail_after (a : Slot) (l : list Slot) (x : Time) :
  StronglySorted (fun a b => End a < Start b) (a :: l) ->
  Exists (covers x) l -> End a < x.
Proof.
  intros [_ Hsep]%StronglySorted_inv Hx.
  apply Exists_exists in Hx as (c & Hc & [Hcx _]).
  rewrite Forall_forall in Hsep. specialize (Hsep c Hc). simpl in *. lia.
Qed.

Lemma separated_unique (l1 : list Slot) :
  forall l2 : list Slot,
    Forall well_formed l1 -> Forall well_formed l2 ->
    StronglySorted (fun a b => End a < Start b) l1 ->
    StronglySorted (fun a b => End a < Start b) l2 ->
    (forall x, Exists (covers x) l1 <-> Exists (covers x) l2) ->
    l1 = l2.
Proof.
  induction l1 as [|a l1 IH]; intros [|b l2] Hw1 Hw2 Hs1 Hs2 Hcov.
  - done.
  - apply Forall_cons in Hw2 as [Hb _].
    assert (Hx : Exists (covers (Start b)) (b :: l2)).
    { left. unfold covers, well_formed in *. lia. }
    apply Hcov in Hx. by apply Exists_nil in Hx.
  - apply Forall_cons in Hw1 as [Ha _].
    assert (Hx : Exists (covers (Start a)) (a :: l1)).
    { left. unfold covers, well_formed in *. lia. }
    apply Hcov in Hx. by apply Exists_nil in Hx.
  - pose proof Hw1 as [Ha Hw1']%Forall_cons.
    pose proof Hw2 as [Hb Hw2']%Forall_cons.
    pose proof Hs1 as [Hs1' _]%StronglySorted_inv.
    pose proof Hs2 as [Hs2' _]%StronglySorted_inv.
    unfold well_formed in Ha, Hb.
    assert (Hin : forall (c d : Slot) (l l' : list Slot) (x : Time),
               (forall x, Exists (covers x) (c :: l) <-> Exists (covers x) (d :: l')) ->
               covers x c -> Exists (covers x) (d :: l')).
    { intros c d l l' x Hcd Hx. apply Hcd. by left. }
    assert (Hstart : Start a = Start b).
    { assert (Start b <= Start a).
      { apply (separated_head_least b l2); [done..|].
        apply (Hin a b l1 l2); [done|]. unfold covers. lia. }
      assert (Start a <= Start b).
      { apply (separated_head_least a l1); [done..|].
        apply (Hin b a l2 l1); [by symmetry|]. unfold covers. lia. }
      lia. }
    assert (Hend : forall (c d : Slot) (l l' : list Slot),
               Start c = Start d -> Start c < End c -> Start d < End d ->
               StronglySorted (fun a b => End a < Start b) (c :: l) ->
               (forall x, Exists (covers x) (c :: l) <-> Exists (covers x) (d :: l')) ->
               End d <= End c).
    { intros c d l l' Hcd Hc Hd Hsc Hcov'.
      destruct (Z.le_gt_cases (End d) (End c)) as [|Hlt]; [done|exfalso].
      assert (Hx : Exists (covers (End c)) (d :: l')).
      { left. unfold covers. lia. }
      apply Hcov' in Hx. apply Exists_cons in Hx as [[_ ?]|Hx]; [lia|].
      pose proof (separated_tail_after c l (End c) Hsc Hx). lia. }
    assert (Hend' : End a = End b).
    { pose proof (Hend a b l1 l2 Hstart Ha Hb Hs1 Hcov).
      pose proof (Hend b a l2 l1 (eq_sym Hstart) Hb Ha Hs2
                    (fun x => iff_sym (Hcov x))).
      lia. }
    assert (Hab : a = b).
    { destruct a, b. simpl in *. by subst. }
    subst b. f_equal. apply IH; [done..|].
    intros x. split; intros Hx.
    + assert (Hx' : Exists (covers x) (a :: l2)) by (apply Hcov; by right).
      apply Exists_cons in Hx' as [[_ ?]|]; [|done].
      pose proof (separated_tail_after a l1 x Hs1 Hx). lia.
    + assert (Hx' : Exists (covers x) (a :: l1)) by (apply Hcov; by right).
      apply Exists_cons in Hx' as [[_ ?]|]; [|done].
      pose proof (separated_tail_after a l2 x Hs2 Hx). lia.
Qed.

(** ** The order of the inputs *)

Lemma free_slots_well_formed {In} (mapin : In -> Block) (keep : Slot -> bool)
    (inputs : list In) (t : Span) :
  Forall (fun input => well_formed (mapin input)) inputs ->
  Forall well_formed (free_slots mapin keep t inputs).
Proof.
  intros Hwf. destruct (free_slots_inv mapin keep inputs Hwf t) as [Hin _].
  eapply Forall_impl; [exact Hin|]. by intros s (_ & ? & _).
Qed.

(** The slots depend on the blocks, not on the order sorting gave equal
    [Start]s. *)
Lemma free_slots_sorted_perm {In} (mapin : In -> Block) (keep : Slot -> bool)
    (l1 l2 : list In) (t : Span) :
  Forall (fun input => well_formed (mapin input)) l1 ->
  l1 ≡ₚ l2 ->
  StronglySorted (fun a b => Start (mapin a) <= Start (mapin b)) l1 ->
  StronglySorted (fun a b => Start (mapin a) <= Start (mapin b)) l2 ->
  free_slots mapin keep t l1 = free_slots mapin keep t l2.
Proof.
  intros Hwf1 Hperm Hs1 Hs2.
  assert (Hwf2 : Forall (fun input => well_formed (mapin input)) l2)
    by by rewrite <- Hperm.
  rewrite (free_slots_filter mapin keep l1), (free_slots_filter mapin keep l2).
  f_equal. apply separated_unique.
  - by apply free_slots_well_formed.
  - by apply free_slots_well_formed.
  - by apply free_slots_inv.
  - by apply free_slots_inv.
  - intros x. rewrite !free_slots_cover by done. by rewrite Hperm.
Qed.

Lemma free_slots_fmap {In} (mapin : In -> Block) (keep : Slot -> bool)
    (inputs : list In) :
  forall t, free_slots mapin keep t inputs = free_slots id keep t (mapin <$> inputs).
Proof.
  induction inputs as [|input rest IH]; intros t; [done|].
  rewrite fmap_cons, !free_slots_cons. unfold id at 1 2 3 4 5 6.
  by rewrite !IH.
Qed.

Lemma sorted_by_mapped_Start {In} `{Period In} (mapin : In -> Block)
    (l : list In) :
  Forall (fun input => Start (mapin input) = Start input) l ->
  StronglySorted (fun a b => Start a <= Start b) l ->
  StronglySorted (fun a b => Start (mapin a) <= Start (mapin b)) l.
Proof.
  intros Hagree Hs. induction Hs as [|a l Hl IH Ha]; [constructor|].
  apply Forall_cons in Hagree as [Haa Hal].
  constructor; [by apply IH|].
  rewrite Forall_forall in Ha, Hal |- *. intros b Hb.
  rewrite Haa, (Hal b Hb). by apply Ha.
Qed.

Lemma found_perm (H1 H2 : SliceSort) {In Out} `{Period In}
    (mapin : In -> Block) (mapout : Slot -> Out) (options : Options Out)
    (sp : Span) (l1 l2 : list In) :
  Forall (fun input => well_formed (mapin input)) l1 ->
  Forall (fun input => Start (mapin input) = Start input) l1 ->
  l1 ≡ₚ l2 ->
  @found H1 _ _ _ mapin mapout options sp l1
  = @found H2 _ _ _ mapin mapout options sp l2.
Proof.
  intros Hwf Hagree Hperm. unfold found.
  destruct (span_remain sp); [|done].
  destruct l1 as [|a l1], l2 as [|b l2]; [done| | |].
  { by apply Permutation_nil_cons in Hperm. }
  { symmetry in Hperm. by apply Permutation_nil_cons in Hperm. }
  set (less := fun a b : In => Before (Start a) (Start b)).
  assert (Hp1 : @sort_slice H1 _ less (a :: l1) ≡ₚ a :: l1) by apply sort_slice_perm.
  assert (Hp2 : @sort_slice H2 _ less (b :: l2) ≡ₚ b :: l2) by apply sort_slice_perm.
  apply free_slots_sorted_perm.
  - by rewrite Hp1.
  - by rewrite Hp1, Hp2.
  - apply sorted_by_mapped_Start; [by rewrite Hp1|].
    apply (@sort_slice_by_Start H1).
  - apply sorted_by_mapped_Start; [by rewrite Hp2, <- Hperm|].
    apply (@sort_slice_by_Start H2).
Qed.

Lemma left_inputs_perm `{SliceSort} {In} `{Period In} (sp : Span) (inputs : list In) :
  left_inputs sp inputs ≡ₚ inputs.
Proof. unfold left_inputs. destruct (span_remain sp); [apply sort_slice_perm|done]. Qed.

(** ** Options, inputs and results *)

Lemma apply_opts_last {Out} (opts : list (Option Out)) (filter : FilterFunc Out) :
  apply_opts (opts ++ [WithFilter filter]) = mkOptions filter.
Proof. unfold apply_opts. by rewrite foldl_app. Qed.

Lemma FindWithMapper_options `{SliceSort} {In Out} `{Period In} `{Zero Out}
    (inputs : list In) (span : option positive) (mapin : In -> Block)
    (mapout : Slot -> Out) (opts1 opts2 : list (Option Out))
    (st : State (Event In Out)) :
  apply_opts opts1 = apply_opts opts2 ->
  FindWithMapper inputs span mapin mapout opts1 st
  = FindWithMapper inputs span mapin mapout opts2 st.
Proof. intros Heq. unfold FindWithMapper. by rewrite Heq. Qed.

(** X1. Options: of several [WithFilter] options only the last one counts,
    for [Find] and for [FindWithMapper]; when the last one carries a [nil]
    filter the call is the call without options. *)
Theorem WithFilter_last_wins `{SliceSort} {In Out} `{Period In} `{Zero Out}
    (blocks : list Block) (inputs : list In) (span : option positive)
    (mapin : In -> Block) (mapout : Slot -> Out)
    (opts : list (Option (option Slot))) (filter : FilterFunc (option Slot))
    (opts' : list (Option Out)) (filter' : FilterFunc Out)
    (st : State (Event Block (option Slot))) (st' : State (Event In Out)) :
  Find blocks span (opts ++ [WithFilter filter]) st
  = Find blocks span [WithFilter filter] st
  /\ FindWithMapper inputs span mapin mapout (opts' ++ [WithFilter filter']) st'
     = FindWithMapper inputs span mapin mapout [WithFilter filter'] st'
  /\ Find blocks span (opts ++ [WithFilter None]) st = Find blocks span [] st
  /\ FindWithMapper inputs span mapin mapout (opts' ++ [WithFilter None]) st'
     = FindWithMapper inputs span mapin mapout [] st'.
Proof.
  rewrite <- !Find_eq.
  repeat split; apply FindWithMapper_options; by rewrite apply_opts_last.
Qed.

(** X2. No inputs: with a span that has room and an empty slice, [Find] and
    [FindWithMapper] return the whole span as their one result whatever the
    options are, and the trace is what it was: no filter is called. *)
Theorem FindWithMapper_no_inputs `{SliceSort} {In Out} `{Period In} `{Zero Out}
    (p : positive) (sp : Span) (mapin : In -> Block) (mapout : Slot -> Out)
    (opts : list (Option (option Slot))) (opts' : list (Option Out))
    (st : State (Event Block (option Slot))) (st' : State (Event In Out)) :
  heap st !! p = Some sp ->
  heap st' !! p = Some sp ->
  well_formed sp ->
  (exists after,
     Find [] (Some p) opts st = Ok (([Some (span_to_slot sp)], []), after)
     /\ trace after = trace st)
  /\ (exists after,
        FindWithMapper [] (Some p) mapin mapout opts' st'
        = Ok (([mapout (span_to_slot sp)], []), after)
        /\ trace after = trace st').
Proof.
  intros Hp Hp' Hsp.
  assert (Hrem : span_remain sp = true) by by apply Z.ltb_lt.
  split.
  - unfold Find. exec. rewrite Hp. simpl. rewrite Hrem. go. by eexists.
  - unfold FindWithMapper. exec. rewrite Hp'. simpl. rewrite Hrem. go.
    by eexists.
Qed.

Lemma FindWithMapper_no_inputs_witness :
  (exists after,
     Find [] (Some 1%positive) [WithFilter always] sample_state
     = Ok (([Some (span_to_slot sample_span)], []), after)
     /\ trace after = trace (sample_state (Ev := Event Block (option Slot))))
  /\ (exists after,
        FindWithMapper (In := nat * Block) [] (Some 1%positive) snd duration
          [WithFilter (Some (fun _ => true))] sample_state
        = Ok (([duration (span_to_slot sample_span)], []), after)
        /\ trace after = trace (sample_state (Ev := Event (nat * Block) Z))).
Proof.
  apply (FindWithMapper_no_inputs 1%positive sample_span snd duration
           [WithFilter always] [WithFilter (Some (fun _ => true))]
           sample_state sample_state);
    reflexivity.
Defined.

(** X3. The caller's slice: after a call with a span that is not [nil] the
    slice holds the inputs it held, and when the span has room they are in
    ascending order of [Start]. *)
Theorem FindWithMapper_sorts_inputs `{SliceSort} {In Out} `{Period In} `{Zero Out}
    (inputs : list In) (p : positive) (sp : Span) (mapin : In -> Block)
    (mapout : Slot -> Out) (opts : list (Option Out))
    (st : State (Event In Out)) :
  heap st !! p = Some sp ->
  exists result inputs' st',
    FindWithMapper inputs (Some p) mapin mapout opts st
    = Ok ((result, inputs'), st')
    /\ inputs' ≡ₚ inputs
    /\ (well_formed sp ->
        StronglySorted (fun a b => Start a <= Start b) inputs').
Proof.
  intros Hp.
  destruct (FindWithMapper_run mapin mapout inputs p sp opts st Hp)
    as (st' & Hrun & _).
  eexists _, _, st'. split; [exact Hrun|].
  split; [apply left_inputs_perm|].
  intros Hsp. unfold left_inputs.
  assert (Hrem : span_remain sp = true) by by apply Z.ltb_lt.
  rewrite Hrem. apply sort_slice_by_Start.
Qed.

Lemma FindWithMapper_sorts_inputs_witness :
  exists result inputs' st',
    FindWithMapper sample_inputs (Some 1%positive) snd duration [] sample_state
    = Ok ((result, inputs'), st')
    /\ inputs' ≡ₚ sample_inputs
    /\ (well_formed sample_span ->
        StronglySorted (fun a b => Start a <= Start b) inputs').
Proof.
  apply (FindWithMapper_sorts_inputs sample_inputs 1%positive sample_span
           snd duration [] sample_state).
  reflexivity.
Defined.

(** X4. The slots of [FindWithMapper]: when [mapin] gives well-formed
    blocks, the results are the images under [mapout] of slots that lie
    inside the span, have [Start < End], are strictly increasing in [Start]
    and are pairwise disjoint. *)
Theorem FindWithMapper_slots_ordered `{SliceSort} {In Out} `{Period In} `{Zero Out}
    (inputs : list In) (p : positive) (sp : Span) (mapin : In -> Block)
    (mapout : Slot -> Out) (opts : list (Option Out))
    (st : State (Event In Out)) :
  heap st !! p = Some sp ->
  Forall (fun input => well_formed (mapin input)) inputs ->
  exists slots inputs' st',
    FindWithMapper inputs (Some p) mapin mapout opts st
    = Ok ((mapout <$> slots, inputs'), st')
    /\ Forall (fun s => Start sp <= Start s /\ End s <= End sp) slots
    /\ Forall well_formed slots
    /\ StronglySorted (fun a b => Start a < Start b) slots
    /\ pairwise_disjoint slots.
Proof.
  intros Hp Hwf.
  destruct (FindWithMapper_run mapin mapout inputs p sp opts st Hp)
    as (st' & Hrun & _).
  eexists _, _, st'. split; [exact Hrun|].
  destruct (found_inv mapin mapout (apply_opts opts) sp inputs Hwf) as [Hin Hsep].
  split; [eapply Forall_impl; [exact Hin|]; by intros s (? & _ & ?)|].
  assert (Hnd : Forall well_formed (found mapin mapout (apply_opts opts) sp inputs)).
  { eapply Forall_impl; [exact Hin|]. by intros s (_ & ? & _). }
  split; [done|]. by apply separated_ordered.
Qed.

Lemma FindWithMapper_slots_ordered_witness :
  exists slots inputs' st',
    FindWithMapper sample_inputs (Some 1%positive) snd duration
      [WithFilter (Some (fun d => d <? 2))] sample_state
    = Ok ((duration <$> slots, inputs'), st')
    /\ Forall (fun s => Start sample_span <= Start s /\ End s <= End sample_span)
         slots
    /\ Forall well_formed slots
    /\ StronglySorted (fun a b => Start a < Start b) slots
    /\ pairwise_disjoint slots.
Proof.
  apply (FindWithMapper_slots_ordered sample_inputs 1%positive sample_span
           snd duration [WithFilter (Some (fun d => d <? 2))] sample_state).
  - reflexivity.
  - repeat constructor.
Defined.

Lemma found_cover_mapped `{SliceSort} {In Out} `{Period In} (mapin : In -> Block)
    (mapout : Slot -> Out) (sp : Span) (inputs : list In) (x : Time) :
  Forall (fun input => well_formed (mapin input)) inputs ->
  Forall (fun input => Start (mapin input) = Start input) inputs ->
  Exists (covers x) (found mapin mapout (apply_opts []) sp inputs)
  <-> covers x sp /\ Forall (fun input => ~ covers x (mapin input)) inputs.
Proof.
  intros Hwf Hagree. unfold found.
  destruct (span_remain sp) eqn:Hrem.
  2:{ rewrite Exists_nil. split; [done|]. intros [Hx _]. order. lia. }
  destruct inputs as [|input rest].
  { rewrite Exists_cons, Exists_nil, Forall_nil. unfold covers. simpl. tauto. }
  set (sorted := sort_slice _ (input :: rest)).
  assert (Hperm : sorted ≡ₚ input :: rest) by apply sort_slice_perm.
  change (Exists (covers x) (free_slots mapin (fun _ => true) sp sorted)
          <-> covers x sp
              /\ Forall (fun i => ~ covers x (mapin i)) (input :: rest)).
  rewrite <- Hperm.
  apply (free_slots_cover mapin sorted).
  - by rewrite Hperm.
  - apply sorted_by_mapped_Start; [by rewrite Hperm|].
    apply sort_slice_by_Start.
Qed.

Lemma found_filter `{SliceSort} {In Out} `{Period In} (mapin : In -> Block)
    (mapout : Slot -> Out) (options : Options Out) (sp : Span) (inputs : list In) :
  inputs <> [] ->
  found mapin mapout options sp inputs
  = List.filter (fun s => negb (filtered options (mapout s)))
      (found mapin mapout (apply_opts []) sp inputs).
Proof.
  intros Hne. unfold found. destruct (span_remain sp); [|done].
  destruct inputs as [|input rest]; [done|]. apply free_slots_filter.
Qed.

(** X5. Coverage of [FindWithMapper]: when [mapin] gives well-formed blocks
    that start where the inputs start, a call without options returns the
    images of slots such that every point of the span lies in a slot or in
    a block, and every point of a slot lies in the span and in no block. *)
Theorem FindWithMapper_covers_span `{SliceSort} {In Out} `{Period In} `{Zero Out}
    (inputs : list In) (p : positive) (sp : Span) (mapin : In -> Block)
    (mapout : Slot -> Out) (st : State (Event In Out)) :
  heap st !! p = Some sp ->
  Forall (fun input => well_formed (mapin input)) inputs ->
  Forall (fun input => Start (mapin input) = Start input) inputs ->
  exists slots inputs' st',
    FindWithMapper inputs (Some p) mapin mapout [] st
    = Ok ((mapout <$> slots, inputs'), st')
    /\ (forall x, covers x sp ->
                  Exists (covers x) slots
                  \/ Exists (fun input => covers x (mapin input)) inputs)
    /\ (forall x, Exists (covers x) slots ->
                  covers x sp
                  /\ ~ Exists (fun input => covers x (mapin input)) inputs).
Proof.
  intros Hp Hwf Hagree.
  destruct (FindWithMapper_run mapin mapout inputs p sp [] st Hp)
    as (st' & Hrun & _).
  eexists _, _, st'. split; [exact Hrun|].
  split; intros x Hx.
  - destruct (decide (Exists (fun input => covers x (mapin input)) inputs))
      as [|Hno]; [by right|left].
    apply found_cover_mapped; [done..|]. split; [done|].
    apply Forall_forall. intros input Hin Hb. apply Hno, Exists_exists. eauto.
  - apply found_cover_mapped in Hx as [Hx Hno]; [|done..]. split; [done|].
    rewrite Forall_forall in Hno. intros (input & Hin & Hb)%Exists_exists.
    by apply (Hno input).
Qed.

Lemma FindWithMapper_covers_span_witness :
  exists slots inputs' st',
    FindWithMapper sample_inputs (Some 1%positive) snd duration [] sample_state
    = Ok ((duration <$> slots, inputs'), st')
    /\ (forall x, covers x sample_span ->
                  Exists (covers x) slots
                  \/ Exists (fun input => covers x (snd input)) sample_inputs)
    /\ (forall x, Exists (covers x) slots ->
                  covers x sample_span
                  /\ ~ Exists (fun input => covers x (snd input)) sample_inputs).
Proof.
  apply (FindWithMapper_covers_span sample_inputs 1%positive sample_span
           snd duration sample_state).
  - reflexivity.
  - repeat constructor.
  - repeat constructor.
Defined.

(** X6. The order of the blocks does not matter: [Find] returns the same
    slots for the same well-formed blocks given in another order, whichever
    way [sort.Slice] orders blocks of equal [Start]. *)
Theorem Find_order_independent (H1 H2 : SliceSort) (blocks blocks' : list Block)
    (p : positive) (sp : Span) (opts : list (Option (option Slot)))
    (st st' : State (Event Block (option Slot))) :
  heap st !! p = Some sp ->
  heap st' !! p = Some sp ->
  Forall well_formed blocks ->
  blocks ≡ₚ blocks' ->
  exists slots left left' after after',
    @Find H1 blocks (Some p) opts st = Ok ((slots, left), after)
    /\ @Find H2 blocks' (Some p) opts st' = Ok ((slots, left'), after').
Proof.
  intros Hp Hp' Hwf Hperm.
  destruct (@Find_run H1 blocks p sp opts st Hp) as (after & Hrun & _).
  destruct (@Find_run H2 blocks' p sp opts st' Hp') as (after' & Hrun' & _).
  assert (Hsame : @found H1 _ _ _ id Some (apply_opts opts) sp blocks
                  = @found H2 _ _ _ id Some (apply_opts opts) sp blocks').
  { apply found_perm; [done| |done]. apply Forall_forall. by intros. }
  eexists _, _, _, after, after'. split; [exact Hrun|].
  by rewrite Hrun', Hsame.
Qed.

Lemma Find_order_independent_witness :
  exists slots left left' after after',
    Find sample_blocks (Some 1%positive) [WithFilter (shorter_than 2)] sample_state
    = Ok ((slots, left), after)
    /\ Find (reverse sample_blocks) (Some 1%positive)
         [WithFilter (shorter_than 2)] sample_state
       = Ok ((slots, left'), after').
Proof.
  apply (Find_order_independent insertion_SliceSort insertion_SliceSort
           sample_blocks (reverse sample_blocks) 1%positive sample_span).
  - reflexivity.
  - reflexivity.
  - repeat constructor.
  - symmetry. apply reverse_Permutation.
Defined.



Lemma found_mapped `{SliceSort} {In Out} `{Period In} (mapin : In -> Block)
    (mapout : Slot -> Out) (filter : FilterFunc Out) (sp : Span)
    (inputs : list In) :
  Forall (fun input => well_formed (mapin input)) inputs ->
  Forall (fun input => Start (mapin input) = Start input) inputs ->
  found mapin mapout (apply_opts [WithFilter filter]) sp inputs
  = found id Some (apply_opts [WithFilter (lift_filter mapout filter)]) sp
      (mapin <$> inputs).
Proof.
  intros Hwf Hagree. unfold found.
  destruct (span_remain sp); [|done].
  destruct inputs as [|input rest]; [done|].
  rewrite fmap_cons.
  set (sorted := sort_slice _ (input :: rest)).
  set (sorted' := sort_slice _ (mapin input :: (mapin <$> rest))).
  assert (Hperm : sorted ≡ₚ input :: rest) by apply sort_slice_perm.
  assert (Hperm' : sorted' ≡ₚ mapin <$> (input :: rest)) by apply sort_slice_perm.
  rewrite free_slots_fmap.
  assert (Hkeep : forall s : Slot,
             negb (filtered (apply_opts [WithFilter filter]) (mapout s))
             = negb (filtered (apply_opts [WithFilter (lift_filter mapout filter)])
                       (Some s)))
    by by destruct filter.
  rewrite (free_slots_filter id _ (mapin <$> sorted)),
          (free_slots_filter id _ sorted').
  erewrite filter_ext by (intros; apply Hkeep). f_equal.
  apply free_slots_sorted_perm.
  - apply Forall_fmap. by rewrite Hperm.
  - by rewrite Hperm, Hperm'.
  - apply (StronglySorted_fmap mapin
             (fun a b => Start (mapin a) <= Start (mapin b))); [done|].
    apply sorted_by_mapped_Start; [by rewrite Hperm|apply sort_slice_by_Start].
  - apply (sort_slice_by_Start (In := Block)).
Qed.

(** X8. [FindWithMapper] against [Find]: when [mapin] gives well-formed blocks
    that start where the inputs start, [FindWithMapper] returns the images
    under [mapout] of the slots [Find] returns for the mapped blocks, the
    filter of [Find] being the caller's filter after [mapout]. *)
Theorem FindWithMapper_as_Find `{SliceSort} {In Out} `{Period In} `{Zero Out}
    (inputs : list In) (p : positive) (sp : Span) (mapin : In -> Block)
    (mapout : Slot -> Out) (filter : FilterFunc Out)
    (st : State (Event In Out)) (st' : State (Event Block (option Slot))) :
  heap st !! p = Some sp ->
  heap st' !! p = Some sp ->
  Forall (fun input => well_formed (mapin input)) inputs ->
  Forall (fun input => Start (mapin input) = Start input) inputs ->
  exists slots left left' after after',
    FindWithMapper inputs (Some p) mapin mapout [WithFilter filter] st
    = Ok ((mapout <$> slots, left), after)
    /\ Find (mapin <$> inputs) (Some p) [WithFilter (lift_filter mapout filter)] st'
       = Ok ((Some <$> slots, left'), after').
Proof.
  intros Hp Hp' Hwf Hagree.
  destruct (FindWithMapper_run mapin mapout inputs p sp [WithFilter filter] st Hp)
    as (after & Hrun & _).
  destruct (Find_run (mapin <$> inputs) p sp
              [WithFilter (lift_filter mapout filter)] st' Hp')
    as (after' & Hrun' & _).
  eexists _, _, _, after, after'. split; [exact Hrun|].
  by rewrite Hrun', (found_mapped mapin mapout filter sp inputs Hwf Hagree).
Qed.

Lemma FindWithMapper_as_Find_witness :
  exists slots left left' after after',
    FindWithMapper sample_inputs (Some 1%positive) snd duration
      [WithFilter (Some (fun d => d <? 2))] sample_state
    = Ok ((duration <$> slots, left), after)
    /\ Find (snd <$> sample_inputs) (Some 1%positive)
         [WithFilter (lift_filter duration (Some (fun d => d <? 2)))] sample_state
       = Ok ((Some <$> slots, left'), after').
Proof.
  apply (FindWithMapper_as_Find sample_inputs 1%positive sample_span snd
           duration (Some (fun d => d <? 2)) sample_state sample_state).
  - reflexivity.
  - reflexivity.
  - repeat constructor.
  - repeat constructor.
Defined.

(** X9. The filter exclusion law, where it holds: with at least one input,
    [FindWithMapper] with a filter [f] returns the results of the call
    without options, less those [f] is true of, and leaves the same slice. *)
Theorem FindWithMapper_filter_excludes `{SliceSort} {In Out} `{Period In} `{Zero Out}
    (inputs : list In) (p : positive) (sp : Span) (mapin : In -> Block)
    (mapout : Slot -> Out) (f : Out -> bool) (st : State (Event In Out)) :
  heap st !! p = Some sp ->
  inputs <> [] ->
  exists slots inputs' st1 st2,
    FindWithMapper inputs (Some p) mapin mapout [] st
    = Ok ((mapout <$> slots, inputs'), st1)
    /\ FindWithMapper inputs (Some p) mapin mapout [WithFilter (Some f)] st
       = Ok ((mapout <$> List.filter (fun s => negb (f (mapout s))) slots,
              inputs'), st2).
Proof.
  intros Hp Hne.
  destruct (FindWithMapper_run mapin mapout inputs p sp [] st Hp)
    as (st1 & Hrun1 & _).
  destruct (FindWithMapper_run mapin mapout inputs p sp [WithFilter (Some f)] st Hp)
    as (st2 & Hrun2 & _).
  eexists _, _, st1, st2. split; [exact Hrun1|].
  by rewrite Hrun2, (found_filter mapin mapout _ sp inputs Hne).
Qed.

Lemma FindWithMapper_filter_excludes_witness :
  exists slots inputs' st1 st2,
    FindWithMapper sample_inputs (Some 1%positive) snd duration [] sample_state
    = Ok ((duration <$> slots, inputs'), st1)
    /\ FindWithMapper sample_inputs (Some 1%positive) snd duration
         [WithFilter (Some (fun d => d <? 2))] sample_state
       = Ok ((duration <$> List.filter (fun s => negb (duration s <? 2)) slots,
              inputs'), st2).
Proof.
  apply (FindWithMapper_filter_excludes sample_inputs 1%positive sample_span
           snd duration (fun d => d <? 2) sample_state).
  - reflexivity.
  - discriminate.
Defined.

(** X11. A block over the whole span: when one of the well-formed blocks
    starts no later than the span and ends no earlier, [Find] returns no
    slot, whatever the other blocks and the options are. *)
Theorem Find_span_covered `{SliceSort} (blocks : list Block) (block : Block)
    (p : positive) (sp : Span) (opts : list (Option (option Slot)))
    (st : State (Event Block (option Slot))) :
  heap st !! p = Some sp ->
  Forall well_formed blocks ->
  block ∈ blocks ->
  Start block <= Start sp ->
  End sp <= End block ->
  exists blocks' st',
    Find blocks (Some p) opts st = Ok (([], blocks'), st').
Proof.
  intros Hp Hwf Hin Hs He.
  destruct (Find_run blocks p sp opts st Hp) as (st' & Hrun & _).
  eexists _, st'. rewrite Hrun.
  assert (Hne : blocks <> []) by (intros ->; by apply elem_of_nil in Hin).
  rewrite (found_filter id Some _ sp blocks Hne).
  destruct (found id Some (apply_opts []) sp blocks) as [|s l] eqn:Hfound; [done|].
  exfalso.
  destruct (found_inv id Some (apply_opts []) sp blocks Hwf) as [Hinside _].
  rewrite Hfound in Hinside. apply Forall_cons in Hinside as [(? & ? & ?) _].
  assert (Hx : Exists (covers (Start s)) (found id Some (apply_opts []) sp blocks)).
  { rewrite Hfound. left. unfold covers. lia. }
  apply found_cover in Hx as [[? ?] Hno]; [|done].
  rewrite Forall_forall in Hno. apply (Hno block Hin). unfold covers. lia.
Qed.

Lemma Find_span_covered_witness :
  exists blocks' st',
    Find (NewBlockWithoutValidating (-1) 9 :: sample_blocks) (Some 1%positive)
      [] sample_state
    = Ok (([], blocks'), st').
Proof.
  apply (Find_span_covered (NewBlockWithoutValidating (-1) 9 :: sample_blocks)
           (NewBlockWithoutValidating (-1) 9) 1%positive sample_span []
           sample_state).
  - reflexivity.
  - repeat constructor.
  - apply list_elem_of_here.
  - simpl. lia.
  - simpl. lia.
Defined.

(** X12. Blocks away from the span: when the span has room and every
    well-formed block ends no later than the span starts or starts no
    earlier than it ends, [Find] without options returns the whole span as
    its one slot. *)
Theorem Find_span_free `{SliceSort} (blocks : list Block) (p : positive)
    (sp : Span) (st : State (Event Block (option Slot))) :
  heap st !! p = Some sp ->
  well_formed sp ->
  Forall well_formed blocks ->
  Forall (fun block => End block <= Start sp \/ End sp <= Start block) blocks ->
  exists blocks' st',
    Find blocks (Some p) [] st = Ok (([Some (span_to_slot sp)], blocks'), st').
Proof.
  intros Hp Hsp Hwf Haway.
  destruct (Find_run blocks p sp [] st Hp) as (st' & Hrun & _).
  eexists _, st'. rewrite Hrun.
  assert (Hsame : found id Some (apply_opts []) sp blocks = [span_to_slot sp]);
    [|by rewrite Hsame].
  destruct (found_inv id Some (apply_opts []) sp blocks Hwf) as [Hinside Hsep].
  apply separated_unique.
  - eapply Forall_impl; [exact Hinside|]. by intros s (_ & ? & _).
  - by repeat constructor.
  - done.
  - repeat constructor.
  - intros x. rewrite found_cover by done.
    rewrite Exists_cons, Exists_nil. unfold covers at 2. simpl.
    split; [intros [[? ?] _]; by left|].
    intros [[? ?]|[]]. split; [by split|].
    eapply Forall_impl; [exact Haway|]. intros block. unfold covers.
    unfold well_formed in Hsp. simpl in *. lia.
Qed.

Lemma Find_span_free_witness :
  exists blocks' st',
    Find [NewBlockWithoutValidating 8 10; NewBlockWithoutValidating (-1) 0]
      (Some 1%positive) [] sample_state
    = Ok (([Some (span_to_slot sample_span)], blocks'), st').
Proof.
  apply (Find_span_free
           [NewBlockWithoutValidating 8 10; NewBlockWithoutValidating (-1) 0]
           1%positive sample_span sample_state).
  - reflexivity.
  - reflexivity.
  - repeat constructor.
  - repeat constructor; simpl; lia.
Defined.

(** ** What a call adds to the trace *)

Lemma filter_calls_app {In Out} (tr1 tr2 : list (Event In Out)) :
  filter_calls (tr1 ++ tr2) = filter_calls tr1 ++ filter_calls tr2.
Proof. apply omap_app. Qed.

Lemma visits_app {In Out} (tr1 tr2 : list (Event In Out)) :
  visits (tr1 ++ tr2) = visits tr1 ++ visits tr2.
Proof. apply omap_app. Qed.

Lemma visits_maybe_filter {In Out} (b : bool) (candidate : Out) :
  visits (In := In) (if b then [EvFilter candidate] else []) = [].
Proof. by destruct b. Qed.

Lemma excluded_eq {In Out} (options : Options Out) (slot : Out)
    (st : State (Event In Out)) :
  excluded options slot st
  = Ok (filtered options slot,
        mkState (heap st)
          (trace st ++ if IsSetFilter options then [EvFilter slot] else [])).
Proof.
  unfold excluded, IsSetFilter, call_filter, filtered.
  destruct (Options_FilterFunc options); [done|].
  rewrite app_nil_r. by destruct st.
Qed.

Lemma walk_target {In} (mapin : In -> Block) (keep keep' : Slot -> bool)
    (inputs : list In) :
  forall t, (walk mapin keep t inputs).2 = (walk mapin keep' t inputs).2.
Proof.
  induction inputs as [|input rest IH]; intros t; simpl; [done|].
  repeat case_match; simpl; auto.
Qed.

Section Trace.
Context {In Out : Type}.
Variable mapin : In -> Block.
Variable mapout : Slot -> Out.
Variable options : Options Out.
Variable target : positive.

Lemma called_app (l1 l2 : list Slot) :
  called mapout options (l1 ++ l2)
  = called mapout options l1 ++ called mapout options l2.
Proof. unfold called. destruct (IsSetFilter options); [apply fmap_app|done]. Qed.

Lemma sweepWithMapper_trace (inputs : list In) :
  forall (st : State (Event In Out)) (t : Span) (j : nat) (buf : list Out)
         (r : nat * list Out) (st' : State (Event In Out)),
    heap st !! target = Some t ->
    sweepWithMapper mapin mapout options target inputs j buf st = Ok (r, st') ->
    filter_calls (trace st')
    = filter_calls (trace st)
      ++ called mapout options (walk mapin (fun _ => true) t inputs).1
    /\ exists k, visits (trace st') = visits (trace st) ++ take k inputs.
Proof.
  induction inputs as [|input rest IH]; intros st t j buf r st' Ht Hrun.
  - simpl in Hrun. injection Hrun as <- <-. unfold called. simpl.
    split; [by destruct (IsSetFilter options); rewrite app_nil_r|].
    exists 0%nat. by rewrite app_nil_r.
  - simpl in Hrun. revert Hrun. exec. go.
    assert (Hstep : forall st1 t1 j1 buf1 pre,
      heap st1 !! target = Some t1 ->
      filter_calls (trace st1)
      = filter_calls (trace st) ++ called mapout options pre ->
      visits (trace st1) = visits (trace st) ++ [input] ->
      sweepWithMapper mapin mapout options target rest j1 buf1 st1 = Ok (r, st') ->
      filter_calls (trace st')
      = filter_calls (trace st)
        ++ called mapout options (pre ++ (walk mapin (fun _ => true) t1 rest).1)
      /\ exists k, visits (trace st') = visits (trace st) ++ take k (input :: rest)).
    { intros st1 t1 j1 buf1 pre Ht1 Hf Hv Hrun.
      destruct (IH st1 t1 j1 buf1 r st' Ht1 Hrun) as [Hf' [k Hv']].
      split; [by rewrite Hf', Hf, called_app, app_assoc|].
      exists (S k). by rewrite Hv', Hv, <- app_assoc. }
    assert (Hstop : forall st1 pre,
      filter_calls (trace st1)
      = filter_calls (trace st) ++ called mapout options pre ->
      visits (trace st1) = visits (trace st) ++ [input] ->
      Ok (r, st1) = Ok (r, st') ->
      filter_calls (trace st')
      = filter_calls (trace st) ++ called mapout options pre
      /\ exists k, visits (trace st') = visits (trace st) ++ take k (input :: rest)).
    { intros st1 pre Hf Hv [= <-]. split; [done|]. exists 1%nat.
      simpl. by rewrite Hv, take_0. }
    assert (Hnone : called mapout options [] = [])
      by (unfold called; by destruct (IsSetFilter options)).
    destruct (Contains (mapin input) t) eqn:Hc.
    { go. intros [= <- <-]. simpl.
      rewrite filter_calls_app, visits_app, Hnone. simpl.
      split; [done|]. exists 1%nat. simpl. by rewrite take_0. }
    go. destruct (OverlapAtStart (mapin input) t) eqn:Hs.
    { go. intros Hrun.
      apply (Hstep _ _ _ _ [] (lookup_insert_eq _ _ _)) in Hrun; [done|..]; simpl.
      - by rewrite filter_calls_app, Hnone.
      - by rewrite visits_app. }
    go. destruct (IsContainedIn (mapin input) t) eqn:Hi.
    { go. rewrite excluded_eq. simpl.
      destruct (filtered options _); simpl.
      - intros Hrun.
        apply (Hstep _ _ _ _ [createSlotFrom t (mapin input)]
                 (lookup_insert_eq _ _ _)) in Hrun; [done|..]; simpl.
        + rewrite !filter_calls_app. simpl. rewrite app_nil_r.
          unfold called. by destruct (IsSetFilter options).
        + rewrite !visits_app, visits_maybe_filter, app_nil_r. done.
      - unfold set_index. case_decide; [|done]. simpl. intros Hrun.
        apply (Hstep _ _ _ _ [createSlotFrom t (mapin input)]
                 (lookup_insert_eq _ _ _)) in Hrun; [done|..]; simpl.
        + rewrite !filter_calls_app. simpl. rewrite app_nil_r.
          unfold called. by destruct (IsSetFilter options).
        + rewrite !visits_app, visits_maybe_filter, app_nil_r. done. }
    go. destruct (OverlapAtEnd (mapin input) t) eqn:He.
    { go. rewrite excluded_eq. simpl.
      assert (Hf : filter_calls
                     ((trace st ++ [EvVisit input]) ++
                      (if IsSetFilter options
                       then [EvFilter (mapout (createSlotFrom t (mapin input)))]
                       else []))
                   = filter_calls (trace st)
                     ++ called mapout options [createSlotFrom t (mapin input)]).
      { rewrite !filter_calls_app. simpl. rewrite app_nil_r.
        unfold called. by destruct (IsSetFilter options). }
      assert (Hv : visits
                     ((trace st ++ [EvVisit input]) ++
                      (if IsSetFilter options
                       then [EvFilter (mapout (createSlotFrom t (mapin input)))]
                       else []))
                   = visits (trace st) ++ [input]).
      { rewrite !visits_app, visits_maybe_filter, app_nil_r. done. }
      destruct (filtered options _); simpl.
      - intros [= <- <-]. simpl. rewrite Hf, Hv.
        split; [done|]. exists 1%nat. simpl. by rewrite take_0.
      - unfold set_index. case_decide; [|done]. simpl.
        intros [= <- <-]. simpl. rewrite Hf, Hv.
        split; [done|]. exists 1%nat. simpl. by rewrite take_0. }
    intros Hrun.
    apply (Hstep (mkState (heap st) (trace st ++ [EvVisit input])) t j buf [] Ht)
      in Hrun; [done|..]; simpl.
    + by rewrite filter_calls_app, Hnone.
    + by rewrite visits_app.
Qed.
End Trace.

Lemma FindWithMapper_trace `{SliceSort} {In Out} `{Period In} `{Zero Out}
    (mapin : In -> Block) (mapout : Slot -> Out) (inputs : list In)
    (p : positive) (sp : Span) (opts : list (Option Out))
    (st : State (Event In Out)) (r : list Out * list In)
    (st' : State (Event In Out)) :
  heap st !! p = Some sp ->
  FindWithMapper inputs (Some p) mapin mapout opts st = Ok (r, st') ->
  (inputs <> [] ->
   filter_calls (trace st')
   = filter_calls (trace st)
     ++ called mapout (apply_opts opts)
          (found mapin mapout (apply_opts []) sp inputs))
  /\ exists k, visits (trace st')
               = visits (trace st) ++ take k (left_inputs sp inputs).
Proof.
  intros Hp. unfold FindWithMapper, found, left_inputs. exec. rewrite Hp. simpl.
  assert (Hnone : called mapout (apply_opts opts) [] = [])
    by (unfold called; by destruct (IsSetFilter _)).
  destruct (span_remain sp) eqn:Hrem; simpl.
  2:{ intros [= <- <-]. rewrite Hnone, app_nil_r. split; [done|].
      exists 0%nat. by rewrite take_0, app_nil_r. }
  destruct inputs as [|input rest].
  { go. intros [= <- <-]. simpl. split; [done|].
    exists 0%nat. by rewrite take_0, app_nil_r. }
  go. unfold sort_Slice. exec. go.
  set (target := fresh (dom (heap st))).
  set (sorted := sort_slice _ (input :: rest)).
  set (st1 := mkState _ _).
  set (options := apply_opts opts).
  assert (Ht1 : heap st1 !! target = Some sp) by apply lookup_insert_eq.
  destruct (sweepWithMapper_run mapin mapout options target sorted
              st1 sp 0 (make (length sorted + 1)) Ht1)
    as (st2 & buf & Hrun & Hheap & Hlen & _).
  { unfold make. rewrite length_replicate. lia. }
  rewrite Hrun.
  destruct (sweepWithMapper_trace mapin mapout options target sorted
              st1 sp 0 (make (length sorted + 1)) _ st2 Ht1 Hrun)
    as (Hf & k & Hv).
  assert (Hf1 : filter_calls (trace st1) = filter_calls (trace st)).
  { unfold st1. simpl. rewrite filter_calls_app. simpl. by rewrite app_nil_r. }
  assert (Hv1 : visits (trace st1) = visits (trace st)).
  { unfold st1. simpl. rewrite visits_app. simpl. by rewrite app_nil_r. }
  rewrite Hf1 in Hf. rewrite Hv1 in Hv. clear Hf1 Hv1 Hrun.
  set (keep := fun s : Slot => negb (filtered options (mapout s))) in *.
  assert (Ht2 : heap st2 !! target = Some (walk mapin keep sp sorted).2)
    by (rewrite Hheap; apply lookup_insert_eq).
  unfold free_slots.
  rewrite (walk_target mapin (fun _ => true) keep sorted sp).
  simpl. rewrite Ht2. simpl.
  destruct (span_remain (walk mapin keep sp sorted).2) eqn:Hrem'; simpl.
  2:{ unfold slice_to. case_decide; [|done]. simpl. intros [= <- <-].
      rewrite app_nil_r. split; [done|]. by exists k. }
  rewrite Ht2. simpl. rewrite excluded_eq. simpl.
  assert (Hlast : filter_calls
                    (trace st2 ++
                     (if IsSetFilter options
                      then [EvFilter (mapout (span_to_slot (walk mapin keep sp sorted).2))]
                      else []))
                  = filter_calls (trace st)
                    ++ called mapout options
                         ((walk mapin (fun _ => true) sp sorted).1
                          ++ kept (fun _ => true)
                               (span_to_slot (walk mapin keep sp sorted).2))).
  { rewrite filter_calls_app, Hf, called_app, <- app_assoc. f_equal. f_equal.
    unfold called, kept. by destruct (IsSetFilter options). }
  assert (Hvis : visits
                   (trace st2 ++
                    (if IsSetFilter options
                     then [EvFilter (mapout (span_to_slot (walk mapin keep sp sorted).2))]
                     else []))
                 = visits (trace st) ++ take k sorted).
  { by rewrite visits_app, visits_maybe_filter, app_nil_r. }
  destruct (filtered options _); simpl.
  - unfold slice_to. case_decide; [|done]. simpl. intros [= <- <-]. simpl.
    split; [intros _; exact Hlast|]. by exists k.
  - unfold set_index. case_decide; [|done]. simpl.
    unfold slice_to. case_decide; [|done]. simpl. intros [= <- <-]. simpl.
    split; [intros _; exact Hlast|]. by exists k.
Qed.

(** X10. The calls of the filter: with at least one input, [FindWithMapper]
    with a filter calls it once on each result the call without options
    returns, in that order, and on nothing else; the call without options
    calls no filter. *)
Theorem FindWithMapper_filter_calls `{SliceSort} {In Out} `{Period In} `{Zero Out}
    (inputs : list In) (p : positive) (sp : Span) (mapin : In -> Block)
    (mapout : Slot -> Out) (f : Out -> bool) (st : State (Event In Out)) :
  heap st !! p = Some sp ->
  inputs <> [] ->
  exists results left after results' left' after',
    FindWithMapper inputs (Some p) mapin mapout [] st
    = Ok ((results, left), after)
    /\ filter_calls (trace after) = filter_calls (trace st)
    /\ FindWithMapper inputs (Some p) mapin mapout [WithFilter (Some f)] st
       = Ok ((results', left'), after')
    /\ filter_calls (trace after') = filter_calls (trace st) ++ results.
Proof.
  intros Hp Hne.
  destruct (FindWithMapper_run mapin mapout inputs p sp [] st Hp)
    as (after & Hrun & _).
  destruct (FindWithMapper_run mapin mapout inputs p sp [WithFilter (Some f)] st Hp)
    as (after' & Hrun' & _).
  destruct (FindWithMapper_trace mapin mapout inputs p sp [] st _ after Hp Hrun)
    as [Hf _].
  destruct (FindWithMapper_trace mapin mapout inputs p sp [WithFilter (Some f)]
              st _ after' Hp Hrun') as [Hf' _].
  eexists _, _, after, _, _, after'.
  split; [exact Hrun|]. split; [by rewrite Hf, app_nil_r|].
  split; [exact Hrun'|]. by apply Hf'.
Qed.

Lemma FindWithMapper_filter_calls_witness :
  exists results left after results' left' after',
    FindWithMapper sample_inputs (Some 1%positive) snd duration [] sample_state
    = Ok ((results, left), after)
    /\ filter_calls (trace after)
       = filter_calls (trace (sample_state (Ev := Event (nat * Block) Z)))
    /\ FindWithMapper sample_inputs (Some 1%positive) snd duration
         [WithFilter (Some (fun d => d <? 2))] sample_state
       = Ok ((results', left'), after')
    /\ filter_calls (trace after')
       = filter_calls (trace (sample_state (Ev := Event (nat * Block) Z)))
         ++ results.
Proof.
  apply (FindWithMapper_filter_calls sample_inputs 1%positive sample_span snd
           duration (fun d => d <? 2) sample_state).
  - reflexivity.
  - discriminate.
Defined.

(** X13. The inputs the loop reaches: in a call with a span that is not
    [nil] the loop goes through the inputs in the order [sort.Slice] left
    them and, when it stops early, leaves out the rest: the inputs the call
    adds to the trace are a prefix of the caller's slice after the call. *)
Theorem FindWithMapper_visits_prefix `{SliceSort} {In Out} `{Period In} `{Zero Out}
    (inputs : list In) (p : positive) (sp : Span) (mapin : In -> Block)
    (mapout : Slot -> Out) (opts : list (Option Out))
    (st : State (Event In Out)) :
  heap st !! p = Some sp ->
  exists results left after k,
    FindWithMapper inputs (Some p) mapin mapout opts st
    = Ok ((results, left), after)
    /\ visits (trace after) = visits (trace st) ++ take k left.
Proof.
  intros Hp.
  destruct (FindWithMapper_run mapin mapout inputs p sp opts st Hp)
    as (after & Hrun & _).
  destruct (FindWithMapper_trace mapin mapout inputs p sp opts st _ after Hp Hrun)
    as [_ [k Hv]].
  eexists _, _, after, k. split; [exact Hrun|]. exact Hv.
Qed.

Lemma FindWithMapper_visits_prefix_witness :
  exists results left after k,
    FindWithMapper sample_inputs (Some 1%positive) snd duration [] sample_state
    = Ok ((results, left), after)
    /\ visits (trace after)
       = visits (trace (sample_state (Ev := Event (nat * Block) Z)))
         ++ take k left.
Proof.
  apply (FindWithMapper_visits_prefix sample_inputs 1%positive sample_span snd
           duration [] sample_state).
  reflexivity.
Defined.
